(** * Code generation for integration definitions

    A shallow embedding of the integration code generator of the botpress
    CLI: the definition mapper and the index module of
    [IntegrationImplementationIndexModule], and the loader, the emitter and
    the secrets of [ProjectCommand].

    JavaScript objects whose properties may be [undefined] are records with
    [option] fields, [Record<string, T>] is [gmap string T], and the module
    objects that [create] allocates and mutates live in an explicit heap.
    The objects that the secrets are collected in, whose keys come from the
    command line, are lists of own properties in the order of [Object.keys],
    read through [Object.prototype].
    The first part of the file holds the definitions, the second the
    properties proved of them. *)

From stdpp Require Import gmap strings list.

Set Default Proof Using "Type".
Set Warnings "-register-all".

(** * Definitions *)

(** ** JavaScript operators *)

(** [a ?? b] *)
Definition nullish {A : Type} (a : option A) (b : A) : A :=
  match a with
  | Some v => v
  | None => b
  end.

(** The double quote and the line feed, which string literals here cannot
    hold. *)
Definition dq : string := String (Ascii.ascii_of_nat 34) EmptyString.

Definition nl : string := String (Ascii.ascii_of_nat 10) EmptyString.

(** [Array.prototype.join] *)
Fixpoint join (sep : string) (parts : list string) : string :=
  match parts with
  | [] => EmptyString
  | [p] => p
  | p :: rest => p +:+ sep +:+ join sep rest
  end.

(** ** Integration definitions *)

(** An object with a [schema] property, such as a configuration, an event, a
    state, a message, or the input or output of an action.  [rest] holds its
    other own properties, those the spread [...x] copies. *)
Record SchemaDefinition (Schema Props : Type) := {
  schema : Schema;
  rest : Props;
}.
Arguments schema {_ _} _.
Arguments rest {_ _} _.

(** What the mapper takes from [../utils] and from the SDK's type
    declarations.

    [Schema] is the type of the values a [schema] property holds at run time:
    a [ZodObject] in a definition as the SDK builds it, whatever
    [mapZodToJsonSchema] returns in a mapped one. *)
Class Utils := {
  Schema : Type;
  Props : Type;
  TagDefinition : Type;
  (** the object literal [{}] in [{ schema: {} }] *)
  emptyObject : Schema;
  (** an object without further properties *)
  noProps : Props;
  (** [utils.schema.mapZodToJsonSchema] *)
  mapZodToJsonSchema : SchemaDefinition Schema Props → Schema;
}.

Section Definitions.
Context `{Utils}.

Record Creation := {
  enabled : bool;
  requiredTags : list string;
}.

Record User := {
  user_tags : option (gmap string TagDefinition);
  user_creation : option Creation;
}.

Record Conversation := {
  conversation_tags : option (gmap string TagDefinition);
  conversation_creation : option Creation;
}.

Record Message := {
  message_tags : option (gmap string TagDefinition);
}.

Record Action := {
  input : SchemaDefinition Schema Props;
  output : SchemaDefinition Schema Props;
}.

Record Channel := {
  conversation : option Conversation;
  message : option Message;
  messages : gmap string (SchemaDefinition Schema Props);
}.

(** The properties of an integration definition that the generator reads.
    [bpsdk.IntegrationDefinition] and [types.IntegrationDefinition] are both
    objects of this shape; they differ in what their [schema] properties
    hold. *)
Record IntegrationDefinition := {
  name : string;
  version : string;
  user : option User;
  configuration : option (SchemaDefinition Schema Props);
  events : option (gmap string (SchemaDefinition Schema Props));
  states : option (gmap string (SchemaDefinition Schema Props));
  actions : option (gmap string Action);
  channels : option (gmap string Channel);
}.

(** *** The definition mapper *)

Definition _mapSchema (x : SchemaDefinition Schema Props) :
    SchemaDefinition Schema Props :=
  {| schema := mapZodToJsonSchema x; rest := rest x |}.

Definition _mapIntegration (i : IntegrationDefinition) : IntegrationDefinition :=
  {| name := name i;
     version := version i;
     user := Some
       {| user_tags := Some (nullish (user i ≫= user_tags) ∅);
          user_creation := Some (nullish (user i ≫= user_creation)
                                   {| enabled := false; requiredTags := [] |}) |};
     configuration := Some
       match configuration i with
       | Some c => _mapSchema c
       | None => {| schema := emptyObject; rest := noProps |}
       end;
     events := Some
       match events i with
       | Some e => _mapSchema <$> e
       | None => ∅
       end;
     states := Some
       match states i with
       | Some s => _mapSchema <$> s
       | None => ∅
       end;
     actions := Some
       match actions i with
       | Some acts =>
           (λ a, {| input := _mapSchema (input a);
                    output := _mapSchema (output a) |}) <$> acts
       | None => ∅
       end;
     channels := Some
       match channels i with
       | Some chans =>
           (λ c, {| conversation := Some
                      {| conversation_tags :=
                           Some (nullish (conversation c ≫= conversation_tags) ∅);
                         conversation_creation :=
                           Some (nullish (conversation c ≫= conversation_creation)
                                   {| enabled := false; requiredTags := [] |}) |};
                    message := Some
                      {| message_tags := Some (nullish (message c ≫= message_tags) ∅) |};
                    messages := _mapSchema <$> messages c |}) <$> chans
       | None => ∅
       end |}.

(** The objects of a definition that carry a [schema]: the configuration,
    every event and state, the input and the output of every action, and
    every message of every channel. *)
Inductive SchemaLeaf (d : IntegrationDefinition) : SchemaDefinition Schema Props → Prop :=
| leaf_configuration x :
    configuration d = Some x → SchemaLeaf d x
| leaf_event m k x :
    events d = Some m → m !! k = Some x → SchemaLeaf d x
| leaf_state m k x :
    states d = Some m → m !! k = Some x → SchemaLeaf d x
| leaf_input m k a :
    actions d = Some m → m !! k = Some a → SchemaLeaf d (input a)
| leaf_output m k a :
    actions d = Some m → m !! k = Some a → SchemaLeaf d (output a)
| leaf_message m k c j x :
    channels d = Some m → m !! k = Some c → messages c !! j = Some x → SchemaLeaf d x.

End Definitions.

(** ** Modules on the heap *)

(** [ModuleDef], the argument of the [Module] constructor.  A path is kept
    as its sequence of segments. *)
Record ModuleDef := {
  path : list string;
  exportName : string;
  content : string;
}.

(** Modules are objects: [create] allocates them, [unshift] and [pushDep]
    mutate them, and the index module holds references to its leaves.  A
    reference is an address on the heap. *)
Abbreviation loc := nat.

Section Heap.
Context `{Utils}.

(** The fields a subclass adds to [Module]. *)
Inductive ModuleClass :=
| LeafModule
| IndexModule (integration : IntegrationDefinition)
    (configModule actionsModule channelsModule eventsModule statesModule : loc).

Record ModuleObj := {
  def : ModuleDef;
  dependencies : list loc;
  class : ModuleClass;
}.

(** The heap: the objects allocated so far, each at its position. *)
#[local] Abbreviation Heap := (list ModuleObj).

(** A computation on the heap. *)
Definition Js (A : Type) : Type := Heap → A * Heap.

#[global] Instance Js_ret : MRet Js := λ A a h, (a, h).

#[global] Instance Js_bind : MBind Js := λ A B f m h, let '(a, h') := m h in f a h'.

(** [new]: the object is placed at the next free address. *)
Definition new (o : ModuleObj) : Js loc := λ h, (length h, h ++ [o]).

(** Modelled from the spec: [Module.unshift] of [./module], which is not
    among the verified sources.  It puts a segment in front of the module's
    own path. *)
Definition unshift (segment : string) (this : loc) : Js unit := λ h,
  (tt, alter (λ o, {| def := {| path := segment :: path (def o);
                                exportName := exportName (def o);
                                content := content (def o) |};
                      dependencies := dependencies o;
                      class := class o |}) this h).

(** Modelled from the spec: [Module.pushDep] of [./module].  It records one
    more dependency of the module, after those it has. *)
Definition pushDep (dep : loc) (this : loc) : Js unit := λ h,
  (tt, alter (λ o, {| def := def o;
                      dependencies := dependencies o ++ [dep];
                      class := class o |}) this h).

(** Modelled from the spec: the getter [Module.exports], the exported symbol
    name the module was given. *)
Definition exports (o : ModuleObj) : string := exportName (def o).

End Heap.

Abbreviation Heap := (list ModuleObj).

(** [codegen.File] *)
Record File := {
  file_path : list string;
  file_content : string;
}.

(** ** The index module *)

(** What the index module takes from the rest of [code-generation]: two
    constants of [./const], [stringifySingleLine] of [./generators], the
    getter [name] and the method [import] of [Module], each a function of the
    definitions of the modules involved, and the [create] functions of the
    five leaf modules, each represented by the definition of the module it
    returns.  What else the generators build, the modules below a leaf, is
    not represented. *)
Class Generators `{Utils} := {
  GENERATED_HEADER : string;
  INDEX_FILE : string;
  stringifySingleLine : option User → string;
  Module_name : ModuleDef → string;
  (** [Module_import this base] is [this.import(base)] *)
  Module_import : ModuleDef → ModuleDef → string;
  ConfigurationModule_create : SchemaDefinition Schema Props → ModuleDef;
  ActionsModule_create : gmap string Action → ModuleDef;
  ChannelsModule_create : gmap string Channel → ModuleDef;
  EventsModule_create : gmap string (SchemaDefinition Schema Props) → ModuleDef;
  StatesModule_create : gmap string (SchemaDefinition Schema Props) → ModuleDef;
}.

Section IndexModule.
Context `{Generators}.

(** A leaf module as [create] of the index module takes it from its
    generator: an object of its own with the definition the generator gave.
    [dependencies] lists what [pushDep] registers in [create] of the index
    module; the modules a leaf generator registers on its leaf are the leaf
    generator's, which is not among the verified sources, and nothing below
    reads the dependencies of a leaf. *)
Definition leaf (d : ModuleDef) : ModuleObj :=
  {| def := d; dependencies := []; class := LeafModule |}.

(** [IntegrationImplementationIndexModule.create] *)
Definition create (sdkIntegration : IntegrationDefinition) : Js loc :=
  let integration := _mapIntegration sdkIntegration in
  configModule ← new (leaf (ConfigurationModule_create
    (nullish (configuration integration) {| schema := emptyObject; rest := noProps |})));
  _ ← unshift "configuration" configModule;
  actionsModule ← new (leaf (ActionsModule_create (nullish (actions integration) ∅)));
  _ ← unshift "actions" actionsModule;
  channelsModule ← new (leaf (ChannelsModule_create (nullish (channels integration) ∅)));
  _ ← unshift "channels" channelsModule;
  eventsModule ← new (leaf (EventsModule_create (nullish (events integration) ∅)));
  _ ← unshift "events" eventsModule;
  statesModule ← new (leaf (StatesModule_create (nullish (states integration) ∅)));
  _ ← unshift "states" statesModule;
  inst ← new {| def := {| path := [INDEX_FILE];
                          exportName := "Integration";
                          content := EmptyString |};
                dependencies := [];
                class := IndexModule integration configModule actionsModule
                           channelsModule eventsModule statesModule |};
  _ ← pushDep configModule inst;
  _ ← pushDep actionsModule inst;
  _ ← pushDep channelsModule inst;
  _ ← pushDep eventsModule inst;
  _ ← pushDep statesModule inst;
  mret inst.

(** The lines the getter [content] joins, given the definition of the index
    module, the mapped integration, and its five leaves. *)
Definition indexLines (this : ModuleDef) (integration : IntegrationDefinition)
    (configModule actionsModule channelsModule eventsModule statesModule : ModuleObj) :
    list string :=
  let configImport := Module_import (def configModule) this in
  let actionsImport := Module_import (def actionsModule) this in
  let channelsImport := Module_import (def channelsModule) this in
  let eventsImport := Module_import (def eventsModule) this in
  let statesImport := Module_import (def statesModule) this in
  let name_ m := Module_name (def m) in
  [ GENERATED_HEADER;
    "import * as sdk from " +:+ dq +:+ "@botpress/sdk" +:+ dq;
    EmptyString;
    "import type * as " +:+ name_ configModule +:+ " from " +:+ dq +:+ "./" +:+ configImport +:+ dq;
    "import type * as " +:+ name_ actionsModule +:+ " from " +:+ dq +:+ "./" +:+ actionsImport +:+ dq;
    "import type * as " +:+ name_ channelsModule +:+ " from " +:+ dq +:+ "./" +:+ channelsImport +:+ dq;
    "import type * as " +:+ name_ eventsModule +:+ " from " +:+ dq +:+ "./" +:+ eventsImport +:+ dq;
    "import type * as " +:+ name_ statesModule +:+ " from " +:+ dq +:+ "./" +:+ statesImport +:+ dq;
    "export * as " +:+ name_ configModule +:+ " from " +:+ dq +:+ "./" +:+ configImport +:+ dq;
    "export * as " +:+ name_ actionsModule +:+ " from " +:+ dq +:+ "./" +:+ actionsImport +:+ dq;
    "export * as " +:+ name_ channelsModule +:+ " from " +:+ dq +:+ "./" +:+ channelsImport +:+ dq;
    "export * as " +:+ name_ eventsModule +:+ " from " +:+ dq +:+ "./" +:+ eventsImport +:+ dq;
    "export * as " +:+ name_ statesModule +:+ " from " +:+ dq +:+ "./" +:+ statesImport +:+ dq;
    EmptyString;
    "type TIntegration = {";
    "  name: " +:+ dq +:+ name integration +:+ dq;
    "  version: " +:+ dq +:+ version integration +:+ dq;
    "  configuration: " +:+ name_ configModule +:+ "." +:+ exports configModule;
    "  actions: " +:+ name_ actionsModule +:+ "." +:+ exports actionsModule;
    "  channels: " +:+ name_ channelsModule +:+ "." +:+ exports channelsModule;
    "  events: " +:+ name_ eventsModule +:+ "." +:+ exports eventsModule;
    "  states: " +:+ name_ statesModule +:+ "." +:+ exports statesModule;
    "  user: " +:+ stringifySingleLine (user integration);
    "}";
    EmptyString;
    "export type IntegrationProps = sdk.IntegrationProps<TIntegration>";
    EmptyString;
    "export class Integration extends sdk.Integration<TIntegration> {}";
    EmptyString;
    "export type Client = sdk.IntegrationSpecificClient<TIntegration>" ].

(** The getter [IntegrationImplementationIndexModule.content].  It reads the
    heap: the index module and the five modules its fields refer to. *)
Definition indexContent (this : loc) (h : Heap) : option string :=
  o ← h !! this;
  match class o with
  | IndexModule integration config acts chans evs sts =>
      configModule ← h !! config;
      actionsModule ← h !! acts;
      channelsModule ← h !! chans;
      eventsModule ← h !! evs;
      statesModule ← h !! sts;
      Some (GENERATED_HEADER +:+
            join nl (indexLines (def o) integration configModule actionsModule
                       channelsModule eventsModule statesModule))
  | LeafModule => None
  end.

(** *** What [create] leaves on the heap *)

(** A leaf module once [unshift] has put it under a segment. *)
Definition mounted (segment : string) (d : ModuleDef) : ModuleObj :=
  leaf {| path := segment :: path d; exportName := exportName d; content := content d |}.

(** The six modules [create] leaves on the heap for a definition, the first
    of them at address [base]: the five leaves as far as [create] sees them,
    and the index module. *)
Definition created (sdkIntegration : IntegrationDefinition) (base : loc) : list ModuleObj :=
  let integration := _mapIntegration sdkIntegration in
  [ mounted "configuration" (ConfigurationModule_create
      (nullish (configuration integration) {| schema := emptyObject; rest := noProps |}));
    mounted "actions" (ActionsModule_create (nullish (actions integration) ∅));
    mounted "channels" (ChannelsModule_create (nullish (channels integration) ∅));
    mounted "events" (EventsModule_create (nullish (events integration) ∅));
    mounted "states" (StatesModule_create (nullish (states integration) ∅));
    {| def := {| path := [INDEX_FILE]; exportName := "Integration"; content := EmptyString |};
       dependencies := [base; base + 1; base + 2; base + 3; base + 4];
       class := IndexModule integration base (base + 1) (base + 2) (base + 3) (base + 4) |} ].

(** The text of the index file of a definition. *)
Definition indexText (sdkIntegration : IntegrationDefinition) : string :=
  match created sdkIntegration 0 with
  | [configModule; actionsModule; channelsModule; eventsModule; statesModule; inst] =>
      GENERATED_HEADER +:+
      join nl (indexLines (def inst) (_mapIntegration sdkIntegration) configModule
                 actionsModule channelsModule eventsModule statesModule)
  | _ => EmptyString
  end.

(** *** The shape of the index file *)

Definition importLine (alias reference : string) : string :=
  "import type * as " +:+ alias +:+ " from " +:+ dq +:+ "./" +:+ reference +:+ dq.

Definition exportLine (alias reference : string) : string :=
  "export * as " +:+ alias +:+ " from " +:+ dq +:+ "./" +:+ reference +:+ dq.

(** The declaration of the type [TIntegration] with the given fields, each a
    name with the text of its type. *)
Definition compositeType (fields : list (string * string)) : list string :=
  ["type TIntegration = {"]
  ++ ((λ f, "  " +:+ f.1 +:+ ": " +:+ f.2) <$> fields)
  ++ ["}"].

(** The declarations that wrap [TIntegration]. *)
Definition wrappers : list string :=
  [ EmptyString;
    "export type IntegrationProps = sdk.IntegrationProps<TIntegration>";
    EmptyString;
    "export class Integration extends sdk.Integration<TIntegration> {}";
    EmptyString;
    "export type Client = sdk.IntegrationSpecificClient<TIntegration>" ].

(** What the index file shows of a leaf: the name it is imported under, the
    reference it is imported from, and its export identifier [exports]. *)
Definition leafName (m : ModuleObj) : string := Module_name (def m).

Definition leafImport (this : ModuleDef) (m : ModuleObj) : string :=
  Module_import (def m) this.

End IndexModule.

(** ** Loading a definition *)

(** What a rejected promise or a [throw] carries: an error of the CLI, or
    whatever a collaborator raised. *)
Inductive Thrown :=
| BotpressCLIError (msg : string)
| Foreign (what : string).

Inductive Outcome (A : Type) :=
| Returned (a : A)
| Threw (e : Thrown).
Arguments Returned {_} _.
Arguments Threw {_} _.

(** The argument of [utils.esbuild.buildEntrypoint]. *)
Record BuildProps := {
  cwd : string;
  outfile : string;
  entrypoint : string;
  write : bool;
}.

(** An output file of the bundler. *)
Record OutputFile := {
  text : string;
}.

(** The paths [this.projectPaths] resolves. *)
Record ProjectPaths := {
  abs_definition : string;
  abs_workDir : string;
  rel_definition : string;
}.

(** What the loader does to its surroundings, in order. *)
Inductive Event :=
| ExistsSync (p : string)
| LoggerDebug (msg : string)
| BuildEntrypoint (props : BuildProps)
| RequireJsCode (code : string).

Definition isBuild (e : Event) : bool :=
  match e with BuildEntrypoint _ => true | _ => false end.

Definition isRequire (e : Event) : bool :=
  match e with RequireJsCode _ => true | _ => false end.

Section Loader.
Context `{Utils}.

(** The module object [requireJsCode] evaluates the artifact to. *)
Record Exports := {
  default_export : option IntegrationDefinition;
}.

(** The surroundings of the loader: the file system's answer to
    [fs.existsSync], and the results of [utils.esbuild.buildEntrypoint] and
    [utils.require.requireJsCode], either of which may throw. *)
Record World := {
  existsSync : string → bool;
  buildEntrypoint : BuildProps → Outcome (list OutputFile);
  requireJsCode : string → Outcome Exports;
}.

(** The argument [readIntegrationDefinitionFromFS] gives the bundler. *)
Definition buildProps (paths : ProjectPaths) : BuildProps :=
  {| cwd := abs_workDir paths;
     outfile := EmptyString;
     entrypoint := rel_definition paths;
     write := false |}.

(** [ProjectCommand.readIntegrationDefinitionFromFS], with the trace of its
    calls. *)
Definition readIntegrationDefinitionFromFS (w : World) (paths : ProjectPaths) :
    list Event * Outcome (option IntegrationDefinition) :=
  if negb (existsSync w (abs_definition paths)) then
    ([ExistsSync (abs_definition paths);
      LoggerDebug ("Integration definition not found at " +:+ rel_definition paths)],
     Returned None)
  else
    match buildEntrypoint w (buildProps paths) with
    | Threw e =>
        ([ExistsSync (abs_definition paths); BuildEntrypoint (buildProps paths)], Threw e)
    | Returned outputFiles =>
        match outputFiles !! 0 with
        | None =>
            ([ExistsSync (abs_definition paths); BuildEntrypoint (buildProps paths)],
             Threw (BotpressCLIError "Could not read integration definition"))
        | Some artifact =>
            match requireJsCode w (text artifact) with
            | Threw e =>
                ([ExistsSync (abs_definition paths); BuildEntrypoint (buildProps paths);
                  RequireJsCode (text artifact)], Threw e)
            | Returned module =>
                ([ExistsSync (abs_definition paths); BuildEntrypoint (buildProps paths);
                  RequireJsCode (text artifact)], Returned (default_export module))
            end
        end
    end.

End Loader.

(** ** Writing the files *)

(** A file system maps the absolute paths that exist, as sequences of
    segments, to what is there.  The root always exists and is a directory. *)
Inductive Entry :=
| Directory
| Regular (data : string).

Inductive Errno := ENOENT | ENOTDIR | EEXIST | EISDIR.

Inductive Result (A : Type) :=
| Ok (a : A)
| Fail (e : Errno).
Arguments Ok {_} _.
Arguments Fail {_} _.

#[global] Instance Result_ret : MRet Result := λ A a, Ok a.

#[global] Instance Result_bind : MBind Result := λ A B f r,
  match r with
  | Ok a => f a
  | Fail e => Fail e
  end.

Abbreviation FileSystem := (gmap (list string) Entry).

Definition isDirectory (fs : FileSystem) (p : list string) : bool :=
  match p with
  | [] => true
  | _ =>
      match fs !! p with
      | Some Directory => true
      | _ => false
      end
  end.

(** [p] and every directory above it exist as directories. *)
Definition directoryPath (fs : FileSystem) (p : list string) : Prop :=
  ∀ q, q `prefix_of` p → isDirectory fs q = true.

(** [path.dirname] *)
Definition dirname (p : list string) : list string := removelast p.

(** [fs.promises.mkdir(p, { recursive: true })] below the directory [parent]:
    every missing directory on the way is created, one that is there is left
    alone, and a regular file in the way is an error. *)
Fixpoint mkdirBelow (parent segments : list string) (fs : FileSystem) : Result FileSystem :=
  match segments with
  | [] => Ok fs
  | s :: segments' =>
      let p := parent ++ [s] in
      match fs !! p with
      | Some (Regular _) =>
          Fail (match segments' with [] => EEXIST | _ => ENOTDIR end)
      | Some Directory => mkdirBelow p segments' fs
      | None => mkdirBelow p segments' (<[p := Directory]> fs)
      end
  end.

Definition mkdir_recursive (p : list string) (fs : FileSystem) : Result FileSystem :=
  mkdirBelow [] p fs.

(** [fs.promises.writeFile(p, data)]: the directory of [p] has to exist, and
    [p] itself must not be a directory; a regular file there is replaced. *)
Definition writeFile (p : list string) (data : string) (fs : FileSystem) : Result FileSystem :=
  match p with
  | [] => Fail EISDIR
  | _ =>
      if isDirectory fs (dirname p) then
        match fs !! p with
        | Some Directory => Fail EISDIR
        | _ => Ok (<[p := Regular data]> fs)
        end
      else
        match fs !! dirname p with
        | Some (Regular _) => Fail ENOTDIR
        | _ => Fail ENOENT
        end
  end.

Section Emitter.
(** [utils.path.absoluteFrom], of [../utils] *)
Variable absoluteFrom : list string → list string → list string.

(** One turn of the loop of [writeGeneratedFilesToOutFolder]. *)
Definition writeGeneratedFile (outDir : list string) (file : File)
    (fs : FileSystem) : Result FileSystem :=
  let filePath := absoluteFrom outDir (file_path file) in
  let dirPath := dirname filePath in
  fs ← mkdir_recursive dirPath fs;
  writeFile filePath (file_content file) fs.

(** [ProjectCommand.writeGeneratedFilesToOutFolder]; a failed call ends the
    loop. *)
Fixpoint writeGeneratedFilesToOutFolder (outDir : list string) (files : list File)
    (fs : FileSystem) : Result FileSystem :=
  match files with
  | [] => Ok fs
  | file :: files' =>
      fs ← writeGeneratedFile outDir file fs;
      writeGeneratedFilesToOutFolder outDir files' fs
  end.

End Emitter.

(** ** The schema translator of the specification *)

Module Translator.

(** Modelled from the spec: the structural validation schemas the translator
    reads.  They belong to the validation library, which is not among the
    verified sources; [ZOther] stands for every construct the translator does
    not classify. *)
Inductive ZodType :=
| ZString
| ZNumber
| ZBoolean
| ZNull
| ZLiteral (value : string)
| ZEnum (values : list string)
| ZArray (element : ZodType)
| ZObject (shape : list (string * ZodType))
| ZUnion (options : list ZodType)
| ZOptional (inner : ZodType)
| ZDefault (inner : ZodType) (value : string)
| ZDescribe (inner : ZodType) (description : string)
| ZOther.

Inductive Kind :=
| object | array | union | literal | enum
| string_ | number | boolean | null | unknown.

(** Modelled from the spec: [SchemaNode], a tree of type descriptors with its
    kind, optionality, description and default, and the children of an
    object, the element of an array, or the variants of a union or enum. *)
Inductive SchemaNode :=
| Node (kind : Kind) (optional : bool) (description : option string)
    (default : option string) (body : Body)
with Body :=
| Children (fields : list (string * SchemaNode))
| Element (element : SchemaNode)
| Variants (variants : list SchemaNode)
| Value (value : option string).

Definition plain (k : Kind) (b : Body) : SchemaNode := Node k false None None b.

Definition setOptional (n : SchemaNode) : SchemaNode :=
  let 'Node k _ d v b := n in Node k true d v b.

Definition setDefault (value : string) (n : SchemaNode) : SchemaNode :=
  let 'Node k o d _ b := n in Node k o d (Some value) b.

Definition setDescription (text : string) (n : SchemaNode) : SchemaNode :=
  let 'Node k o _ v b := n in Node k o (Some text) v b.

Definition descriptionOf (n : SchemaNode) : option string :=
  let 'Node _ _ d _ _ := n in d.

(** Modelled from the spec: [translate], total; fields and variants keep
    their order, optionality and defaults are copied, and what cannot be
    classified becomes [unknown]. *)
Fixpoint translate (z : ZodType) : SchemaNode :=
  match z with
  | ZString => plain string_ (Value None)
  | ZNumber => plain number (Value None)
  | ZBoolean => plain boolean (Value None)
  | ZNull => plain null (Value None)
  | ZLiteral v => plain literal (Value (Some v))
  | ZEnum vs => plain enum (Variants ((λ v, plain literal (Value (Some v))) <$> vs))
  | ZArray e => plain array (Element (translate e))
  | ZObject shape => plain object (Children ((λ f, (f.1, translate f.2)) <$> shape))
  | ZUnion opts => plain union (Variants (translate <$> opts))
  | ZOptional inner => setOptional (translate inner)
  | ZDefault inner v => setDefault v (translate inner)
  | ZDescribe inner text => setDescription text (translate inner)
  | ZOther => plain unknown (Value None)
  end.

(** What a [schema] property holds: a structural schema in a definition as
    its author wrote it, a schema node in a mapped one. *)
Inductive SchemaValue :=
| Structural (z : ZodType)
| Portable (n : SchemaNode).

(** The empty object schema. *)
Definition emptyObjectNode : SchemaNode := plain object (Children []).

(** Modelled from the spec: [mapZodToJsonSchema] of [../utils], the
    translator at the [schema] property of an object.  The spec gives the
    translator for structural schemas.  A value that is a schema node
    already is outside of what it says; the node is left as it is here, and
    no example below hands one to the translator. *)
Definition utils : Utils :=
  {| Schema := SchemaValue;
     Props := list (string * string);
     TagDefinition := string;
     emptyObject := Portable emptyObjectNode;
     noProps := [];
     mapZodToJsonSchema := λ x,
       match schema x with
       | Structural z => Portable (translate z)
       | Portable n => Portable n
       end |}.

End Translator.

(** ** Examples *)

Module Demo.
Import Translator.

(** The definition [{ name: "demo", version: "1.0.0", actions: { ping:
    { input: { schema: {} }, output: { schema: { message: string } } } } }],
    for a translator and what holds its structural schemas. *)
Definition demo (U : Utils) (structural : ZodType → @Schema U) :
    @IntegrationDefinition U :=
  {| name := "demo";
     version := "1.0.0";
     user := None;
     configuration := None;
     events := None;
     states := None;
     actions := Some {[ "ping" :=
       {| input := {| schema := structural (ZObject []); rest := noProps |};
          output := {| schema := structural (ZObject [("message", ZString)]);
                       rest := noProps |} |} ]};
     channels := None |}.

(** The name of a file without its extension: what comes before the first
    dot. *)
Fixpoint stem (file : string) : string :=
  match file with
  | EmptyString => EmptyString
  | String c file' =>
      if Ascii.eqb c (Ascii.ascii_of_nat 46) then EmptyString else String c (stem file')
  end.

(** Modelled from the spec: a [Module] that goes by the name of the section
    it lies under, the first segment of its path, and is imported by its path
    from the folder of the index file, without the extension; with leaf
    generators that each write one file [index.ts]. *)
Definition sectionNames : @Generators utils :=
  {| GENERATED_HEADER := "// This file is generated";
     INDEX_FILE := "index.ts";
     stringifySingleLine := λ _, "{}";
     Module_name := λ d, List.hd EmptyString (path d);
     Module_import := λ this _, join "/" (stem <$> path this);
     ConfigurationModule_create := λ _,
       {| path := ["index.ts"]; exportName := "Configuration"; content := EmptyString |};
     ActionsModule_create := λ _,
       {| path := ["index.ts"]; exportName := "Actions"; content := EmptyString |};
     ChannelsModule_create := λ _,
       {| path := ["index.ts"]; exportName := "Channels"; content := EmptyString |};
     EventsModule_create := λ _,
       {| path := ["index.ts"]; exportName := "Events"; content := EmptyString |};
     StatesModule_create := λ _,
       {| path := ["index.ts"]; exportName := "States"; content := EmptyString |} |}.

(** The modules of the demo definition, and the same modules with the
    configuration module at [configuration/main.ts]. *)
Definition modules : Heap := (@create _ sectionNames (demo utils Structural) []).2.


(** The index file of the demo definition, line by line. *)
Definition indexFile : string :=
  "// This file is generated// This file is generated"
  +:+ nl +:+ "import * as sdk from " +:+ dq +:+ "@botpress/sdk" +:+ dq
  +:+ nl +:+ EmptyString
  +:+ nl +:+ "import type * as configuration from " +:+ dq +:+ "./configuration/index" +:+ dq
  +:+ nl +:+ "import type * as actions from " +:+ dq +:+ "./actions/index" +:+ dq
  +:+ nl +:+ "import type * as channels from " +:+ dq +:+ "./channels/index" +:+ dq
  +:+ nl +:+ "import type * as events from " +:+ dq +:+ "./events/index" +:+ dq
  +:+ nl +:+ "import type * as states from " +:+ dq +:+ "./states/index" +:+ dq
  +:+ nl +:+ "export * as configuration from " +:+ dq +:+ "./configuration/index" +:+ dq
  +:+ nl +:+ "export * as actions from " +:+ dq +:+ "./actions/index" +:+ dq
  +:+ nl +:+ "export * as channels from " +:+ dq +:+ "./channels/index" +:+ dq
  +:+ nl +:+ "export * as events from " +:+ dq +:+ "./events/index" +:+ dq
  +:+ nl +:+ "export * as states from " +:+ dq +:+ "./states/index" +:+ dq
  +:+ nl +:+ EmptyString
  +:+ nl +:+ "type TIntegration = {"
  +:+ nl +:+ "  name: " +:+ dq +:+ "demo" +:+ dq
  +:+ nl +:+ "  version: " +:+ dq +:+ "1.0.0" +:+ dq
  +:+ nl +:+ "  configuration: configuration.Configuration"
  +:+ nl +:+ "  actions: actions.Actions"
  +:+ nl +:+ "  channels: channels.Channels"
  +:+ nl +:+ "  events: events.Events"
  +:+ nl +:+ "  states: states.States"
  +:+ nl +:+ "  user: {}"
  +:+ nl +:+ "}"
  +:+ nl +:+ EmptyString
  +:+ nl +:+ "export type IntegrationProps = sdk.IntegrationProps<TIntegration>"
  +:+ nl +:+ EmptyString
  +:+ nl +:+ "export class Integration extends sdk.Integration<TIntegration> {}"
  +:+ nl +:+ EmptyString
  +:+ nl +:+ "export type Client = sdk.IntegrationSpecificClient<TIntegration>".

(** [absoluteFrom] for a target that is relative: the target below the
    root. *)
Definition joinPaths (root target : list string) : list string := root ++ target.

(** An object that holds the structural schema of an object type. *)
Definition structural (shape : list (string * ZodType)) :
    SchemaDefinition (@Schema utils) (@Props utils) :=
  Build_SchemaDefinition (@Schema utils) (@Props utils) (Structural (ZObject shape)) [].


(** Two files of one directory. *)
Definition actionsIndex : File :=
  {| file_path := ["actions"; "index.ts"]; file_content := "export type Actions = {}" |}.

Definition actionsPing : File :=
  {| file_path := ["actions"; "ping.ts"]; file_content := "export type Ping = {}" |}.

(** A world whose bundler gives no output file. *)
Definition noArtifact : @World utils :=
  {| existsSync := λ _, true;
     buildEntrypoint := λ _, Returned [];
     requireJsCode := λ _, Threw (Foreign "not evaluated") |}.

(** A world without a definition file. *)
Definition noDefinitionFile : @World utils :=
  {| existsSync := λ _, false;
     buildEntrypoint := λ _, Returned [];
     requireJsCode := λ _, Threw (Foreign "not evaluated") |}.

Definition paths : ProjectPaths :=
  {| abs_definition := "/work/integration.definition.ts";
     abs_workDir := "/work";
     rel_definition := "integration.definition.ts" |}.

End Demo.

(** ** Splitting a text *)

(** [text.indexOf(separator)], with [None] for [-1] *)
Definition indexOf (text separator : string) : option nat :=
  String.index 0 separator text.

(** [text.slice(start)] and [text.slice(0, stop)], for the positions that
    [indexOf] gives *)
Definition sliceFrom (start : nat) (text : string) : string :=
  String.substring start (String.length text - start) text.

Definition sliceTo (stop : nat) (text : string) : string :=
  String.substring 0 stop text.

(** [ProjectCommand._splitOnce] *)
Definition _splitOnce (text separator : string) : string * option string :=
  match indexOf text separator with
  | None => (text, None)
  | Some index => (sliceTo index text, Some (sliceFrom (index + 1) text))
  end.

(** ** Objects built by assignment *)

(** The value of a decimal digit. *)
Definition digit (c : Ascii.ascii) : option N :=
  let n := Ascii.N_of_ascii c in
  if ((48 <=? n) && (n <=? 57))%N then Some (n - 48)%N else None.

(** The number a string of decimal digits writes, after [acc]. *)
Fixpoint digits (acc : N) (s : string) : option N :=
  match s with
  | EmptyString => Some acc
  | String c s' =>
      match digit c with
      | Some d => digits (10 * acc + d)%N s'
      | None => None
      end
  end.

(** A property key is an array index when it is the canonical decimal form
    of an integer below [2^32 - 1]. *)
Definition arrayIndex (key : string) : option N :=
  match key with
  | EmptyString => None
  | String c _ =>
      if decide (key = "0") then Some 0%N
      else if decide (c = Ascii.ascii_of_nat 48) then None
      else
        match digits 0 key with
        | Some n => if (n <=? 4294967294)%N then Some n else None
        | None => None
        end
  end.

(** The own properties of an object whose prototype is [Object.prototype],
    in the order [Object.keys] lists them: the array indices in ascending
    order, then the other keys in the order of their creation. *)
Abbreviation JsObject V := (list (string * V)).

Section JsObject.
Context {V : Type}.
Implicit Types (o : JsObject V) (k : string) (v : V).

Fixpoint ownProperty o k : option V :=
  match o with
  | [] => None
  | (k', v) :: o' => if decide (k' = k) then Some v else ownProperty o' k
  end.

(** [Object.keys(o)] *)
Definition keys o : list string := o.*1.

(** A new property goes behind the array indices below its own when it is an
    array index, and to the end otherwise. *)
Fixpoint placeIndex (n : N) k v o : JsObject V :=
  match o with
  | [] => [(k, v)]
  | (k', v') :: o' =>
      match arrayIndex k' with
      | Some n' => if (n' <? n)%N then (k', v') :: placeIndex n k v o' else (k, v) :: o
      | None => (k, v) :: o
      end
  end.

Definition place k v o : JsObject V :=
  match arrayIndex k with
  | Some n => placeIndex n k v o
  | None => o ++ [(k, v)]
  end.

Fixpoint replace k v o : JsObject V :=
  match o with
  | [] => []
  | (k', v') :: o' => if decide (k' = k) then (k', v) :: o' else (k', v') :: replace k v o'
  end.

(** Defining the own property [k]: its value is replaced where it is, or the
    property is created. *)
Definition defineOwn k v o : JsObject V :=
  match ownProperty o k with
  | Some _ => replace k v o
  | None => place k v o
  end.

(** [o[k] = v], for a [v] that is a string or [Object.prototype] itself:
    [__proto__] is an accessor of the prototype, whose setter leaves the
    object as it is for such a value, and every other key becomes an own
    property. *)
Definition assign k v o : JsObject V :=
  if decide (k = "__proto__") then o else defineOwn k v o.

End JsObject.

(** The properties every object inherits from [Object.prototype]. *)
Definition objectPrototype : list string :=
  [ "constructor"; "__defineGetter__"; "__defineSetter__"; "hasOwnProperty";
    "__lookupGetter__"; "__lookupSetter__"; "isPrototypeOf";
    "propertyIsEnumerable"; "toString"; "valueOf"; "__proto__"; "toLocaleString" ].

(** What [o[k]] evaluates to: the own property, else the inherited one, a
    function or for [__proto__] the prototype, else [undefined]. *)
Inductive Read (V : Type) :=
| Own (v : V)
| Inherited
| Undefined.
Arguments Own {_} _.
Arguments Inherited {_}.
Arguments Undefined {_}.

Definition read {V : Type} (o : JsObject V) (k : string) : Read V :=
  match ownProperty o k with
  | Some v => Own v
  | None => if decide (k ∈ objectPrototype) then Inherited else Undefined
  end.

(** [_.mapKeys(object, iteratee)], with an iteratee of the key: the keys are
    visited in the order of [Object.keys], and lodash's [baseAssignValue]
    defines each new key as an own property. *)
Definition mapKeys {V : Type} (iteratee : string → string) (object : JsObject V) :
    JsObject V :=
  fold_left (λ result kv, defineOwn (iteratee kv.1) kv.2 result) object [].

(** ** Secrets *)

Definition missingValue (key : string) : Thrown :=
  BotpressCLIError ("Secret " +:+ dq +:+ key +:+ dq
                    +:+ " is missing a value. Expected format: "
                    +:+ dq +:+ "SECRET_NAME=secretValue" +:+ dq).

(** [ProjectCommand._parseArgvSecrets]: the loop, from the object [parsed]
    built so far. *)
Fixpoint parseSecrets (argvSecrets : list string) (parsed : JsObject string) :
    Outcome (JsObject string) :=
  match argvSecrets with
  | [] => Returned parsed
  | secret :: argvSecrets' =>
      let '(key, value) := _splitOnce secret "=" in
      match value with
      | None | Some EmptyString => Threw (missingValue key)
      | Some value => parseSecrets argvSecrets' (assign key value parsed)
      end
  end.

Definition _parseArgvSecrets (argvSecrets : list string) : Outcome (JsObject string) :=
  parseSecrets argvSecrets [].

(** An entry of [argv.secrets] with a [=] and something behind it. *)
Definition wellFormed (secret : string) : Prop :=
  ∃ key value, secret = key +:+ "=" +:+ value ∧ value ≠ EmptyString.

(** The key and the value [_parseArgvSecrets] reads in an entry. *)
Definition entryKey (secret : string) : string := (_splitOnce secret "=").1.

Definition entryValue (secret : string) : string :=
  default EmptyString (_splitOnce secret "=").2.

(** The object the entries leave in [parsed], where each has a value. *)
Definition stored (secrets : list string) (parsed : JsObject string) : JsObject string :=
  fold_left (λ parsed secret, assign (entryKey secret) (entryValue secret) parsed)
            secrets parsed.

(** A value of the object [values] of [promptSecrets]: a text, or what a
    key of [Object.prototype] reads as in the parsed secrets. *)
Inductive SecretValue :=
| Text (value : string)
| Builtin.

(** What [promptSecrets] shows: a line of [logger.debug], or a question of
    [prompt.text]. *)
Inductive Interaction :=
| Logged (msg : string)
| Asked (msg : string).

Definition isAsked (i : Interaction) : bool :=
  match i with Asked _ => true | Logged _ => false end.

(** The number of questions in a trace. *)
Definition prompts (trace : list Interaction) : nat := length (filter isAsked trace).

Definition usingSecret (secretDef : string) : string :=
  "Using secret " +:+ dq +:+ secretDef +:+ dq +:+ " from argv".

Definition enterValue (secretDef : string) : string :=
  "Enter value for secret " +:+ dq +:+ secretDef +:+ dq.

Definition notDefined (invalidSecret : string) : Thrown :=
  BotpressCLIError ("Secret " +:+ invalidSecret +:+ " is not defined in integration definition").

Definition secretRequired : Thrown := BotpressCLIError "Secret is required".

(** [secretArgv[secretDef]] when it is truthy. *)
Definition argvSecret (secretArgv : JsObject string) (secretDef : string) :
    option SecretValue :=
  match read secretArgv secretDef with
  | Own EmptyString | Undefined => None
  | Own value => Some (Text value)
  | Inherited => Some Builtin
  end.

(** [secretDefinitions.includes(s)] *)
Definition includes (s : string) (secretDefinitions : list string) : bool :=
  bool_decide (s ∈ secretDefinitions).

(** What [promptSecrets] shows for a secret definition, and the definitions
    it has to ask for. *)
Definition interaction (secretArgv : JsObject string) (secretDef : string) : Interaction :=
  match argvSecret secretArgv secretDef with
  | Some _ => Logged (usingSecret secretDef)
  | None => Asked (enterValue secretDef)
  end.

Definition missing (secretArgv : JsObject string) (secretDefinitions : list string) :
    list string :=
  filter (λ d, argvSecret secretArgv d = None) secretDefinitions.

Section Secrets.

(** [codegen.secretEnvVariableName], of [../code-generation], and the answer
    of [prompt.text] to the question of the given number, [None] for
    [undefined]. *)
Variable secretEnvVariableName : string → string.
Variable promptText : nat → string → option string.

(** The loop of [promptSecrets] over the secret definitions. *)
Fixpoint promptEach (secretArgv : JsObject string) (secretDefinitions : list string)
    (values : JsObject SecretValue) (trace : list Interaction) :
    list Interaction * Outcome (JsObject SecretValue) :=
  match secretDefinitions with
  | [] => (trace, Returned values)
  | secretDef :: secretDefinitions' =>
      match argvSecret secretArgv secretDef with
      | Some value =>
          promptEach secretArgv secretDefinitions' (assign secretDef value values)
                     (trace ++ [Logged (usingSecret secretDef)])
      | None =>
          match promptText (prompts trace) (enterValue secretDef) with
          | None | Some EmptyString =>
              (trace ++ [Asked (enterValue secretDef)], Threw secretRequired)
          | Some prompted =>
              promptEach secretArgv secretDefinitions'
                         (assign secretDef (Text prompted) values)
                         (trace ++ [Asked (enterValue secretDef)])
          end
      end
  end.

(** [ProjectCommand.promptSecrets], of the [secrets] of the integration
    definition and of [argv.secrets], with the trace of what it shows. *)
Definition promptSecrets (secrets : option (list string)) (argvSecrets : list string) :
    list Interaction * Outcome (JsObject SecretValue) :=
  match secrets with
  | None => ([], Returned [])
  | Some secretDefinitions =>
      match _parseArgvSecrets argvSecrets with
      | Threw e => ([], Threw e)
      | Returned secretArgv =>
          match List.find (λ s, negb (includes s secretDefinitions)) (keys secretArgv) with
          | Some (String _ _ as invalidSecret) => ([], Threw (notDefined invalidSecret))
          | _ =>
              match promptEach secretArgv secretDefinitions [] [] with
              | (trace, Returned values) =>
                  (trace, Returned (mapKeys secretEnvVariableName values))
              | (trace, Threw e) => (trace, Threw e)
              end
          end
      end
  end.

End Secrets.

(** ** Runs of the emitter *)

(** The file system once the files are written into it, in their order,
    without a directory being made. *)
Definition overwritten (absoluteFrom : list string → list string → list string)
    (outDir : list string) (files : list File) (fs : FileSystem) : FileSystem :=
  fold_left (λ fs file, <[absoluteFrom outDir (file_path file) := Regular (file_content file)]> fs)
            files fs.

(** ** Examples of secrets and of files *)

Module Samples.

(** A name of an environment variable for each secret, a user who answers
    every question alike, and one who answers none. *)
Definition envName (secretName : string) : string := "SECRET_" +:+ secretName.

Definition sameAnswer : nat → string → option string := λ _ _, Some "s3cret".

Definition noAnswer : nat → string → option string := λ _ _, None.

(** An integration with the secrets [ID] and [KEY], and a command line that
    gives [KEY]. *)
Definition secretDefinitions : list string := ["ID"; "KEY"].

Definition argvSecrets : list string := ["KEY=2"].

Definition parsed : JsObject string := [("KEY", "2")].

(** An older file at the path of [Demo.actionsIndex], and a note the
    emitter does not write. *)
Definition olderIndex : File :=
  {| file_path := ["actions"; "index.ts"]; file_content := "export type Actions = never" |}.

Definition notes : FileSystem := {[ ["notes.txt"] := Regular "kept" ]}.

End Samples.

(** * Properties *)

(** ** The definition mapper *)

Section MapperProperties.
Context `{Utils}.

Implicit Types (i d : IntegrationDefinition) (x : SchemaDefinition Schema Props).

(** A map is left alone by [f <$> _] exactly when [f] fixes its values. *)
Lemma fmap_fixed {A : Type} (f : A → A) (m : gmap string A) :
  f <$> m = m ↔ ∀ k v, m !! k = Some v → f v = v.
Proof.
  split.
  - intros Hm k v Hk.
    assert (Hl : (f <$> m) !! k = Some v) by (by rewrite Hm).
    rewrite lookup_fmap, Hk in Hl. by injection Hl.
  - intros Hf. rewrite <- (map_fmap_id m) at 2.
    apply map_fmap_ext. intros k v Hk. exact (Hf k v Hk).
Qed.

Lemma _mapSchema_fixed x : _mapSchema x = x ↔ mapZodToJsonSchema x = schema x.
Proof.
  destruct x as [s r]. unfold _mapSchema. simpl. split.
  - intros Hx. by injection Hx.
  - intros Hx. by rewrite Hx.
Qed.

Lemma IntegrationDefinition_eq d1 d2 :
  name d1 = name d2 → version d1 = version d2 → user d1 = user d2 →
  configuration d1 = configuration d2 → events d1 = events d2 →
  states d1 = states d2 → actions d1 = actions d2 → channels d1 = channels d2 →
  d1 = d2.
Proof. destruct d1, d2; simpl; congruence. Qed.

(** The channels of a mapped definition have their tags and rules. *)
Lemma mapIntegration_channels i chans k c :
  channels (_mapIntegration i) = Some chans → chans !! k = Some c →
  ∃ ctags crule mtags,
    conversation c = Some {| conversation_tags := Some ctags;
                             conversation_creation := Some crule |} ∧
    message c = Some {| message_tags := Some mtags |}.
Proof.
  simpl. intros Hchans Hc. injection Hchans as <-.
  destruct (channels i) as [chans|].
  - rewrite lookup_fmap in Hc.
    destruct (chans !! k) as [c0|]; simpl in Hc; [|discriminate].
    injection Hc as <-. simpl. by eexists _, _, _.
  - by rewrite lookup_empty in Hc.
Qed.

(** C1: for every raw integration definition, the mapper puts the documented
    empty form in place of every optional section that is absent: absent
    [actions], [events] and [states] become the empty mapping, an absent
    [configuration] becomes [{ schema: {} }], and an absent user [creation]
    rule, whether [user] is there or not, becomes
    [{ enabled: false, requiredTags: [] }]. *)
Theorem mapIntegration_absent_sections i :
  (actions i = None → actions (_mapIntegration i) = Some ∅) ∧
  (configuration i = None →
     configuration (_mapIntegration i) = Some {| schema := emptyObject; rest := noProps |}) ∧
  (events i = None → events (_mapIntegration i) = Some ∅) ∧
  (states i = None → states (_mapIntegration i) = Some ∅) ∧
  (user i ≫= user_creation = None →
     user (_mapIntegration i) ≫= user_creation
     = Some {| enabled := false; requiredTags := [] |}) ∧
  (channels i = None → channels (_mapIntegration i) = Some ∅) ∧
  (user i ≫= user_tags = None → user (_mapIntegration i) ≫= user_tags = Some ∅).
Proof.
  unfold _mapIntegration; simpl.
  repeat split; intros ->; reflexivity.
Qed.

(** With no optional section at all, the mapped definition is the empty
    one. *)
Lemma mapIntegration_empty n v :
  _mapIntegration {| name := n; version := v; user := None; configuration := None;
                     events := None; states := None; actions := None; channels := None |}
  = {| name := n; version := v;
       user := Some {| user_tags := Some ∅;
                       user_creation := Some {| enabled := false; requiredTags := [] |} |};
       configuration := Some {| schema := emptyObject; rest := noProps |};
       events := Some ∅; states := Some ∅; actions := Some ∅; channels := Some ∅ |}.
Proof. reflexivity. Qed.

(** C3: after the mapper has run, every optional section of the definition
    is present, possibly empty: configuration, actions, channels, events and
    states, the tags and the creation rule of the user, and in every channel
    the tags and creation rule of the conversation and the tags of the
    message.  So what [create] hands to a leaf generator, the section or
    else a fallback, is always the section itself. *)
Theorem mapIntegration_materialized i :
  let d := _mapIntegration i in
  ∃ cfg acts chans evs sts tags rule,
    configuration d = Some cfg ∧ actions d = Some acts ∧
    channels d = Some chans ∧ events d = Some evs ∧ states d = Some sts ∧
    user d = Some {| user_tags := Some tags; user_creation := Some rule |} ∧
    (∀ k c, chans !! k = Some c →
       ∃ ctags crule mtags,
         conversation c = Some {| conversation_tags := Some ctags;
                                  conversation_creation := Some crule |} ∧
         message c = Some {| message_tags := Some mtags |}) ∧
    (∀ fallback, nullish (configuration d) fallback = cfg) ∧
    (∀ fallback, nullish (actions d) fallback = acts) ∧
    (∀ fallback, nullish (channels d) fallback = chans) ∧
    (∀ fallback, nullish (events d) fallback = evs) ∧
    (∀ fallback, nullish (states d) fallback = sts).
Proof.
  intros d. subst d. do 7 eexists.
  repeat lazymatch goal with |- _ ∧ _ => split end;
    try reflexivity.
  intros k c Hc. by eapply mapIntegration_channels.
Qed.

(** What a second run of the mapper leaves alone. *)
Lemma mapIntegration_fixed_leaves d :
  _mapIntegration d = d →
  ∀ x, SchemaLeaf d x → mapZodToJsonSchema x = schema x.
Proof.
  intros Hd x Hx. apply _mapSchema_fixed.
  destruct d as [n v u cfg evs sts acts chans].
  unfold _mapIntegration in Hd. simpl in Hd.
  injection Hd as _ Hcfg Hevs Hsts Hacts Hchans.
  destruct Hx as [x Hc|m k x Hm Hk|m k x Hm Hk|m k a Hm Hk|m k a Hm Hk|m k c j x Hm Hk Hj];
    simpl in Hc || simpl in Hm; subst.
  - congruence.
  - eapply fmap_fixed; [|exact Hk]. congruence.
  - eapply fmap_fixed; [|exact Hk]. congruence.
  - assert (Ha : {| input := _mapSchema (input a); output := _mapSchema (output a) |} = a).
    { eapply (fmap_fixed (λ a, {| input := _mapSchema (input a);
                                 output := _mapSchema (output a) |}));
        [|exact Hk]. congruence. }
    destruct a; simpl in *. congruence.
  - assert (Ha : {| input := _mapSchema (input a); output := _mapSchema (output a) |} = a).
    { eapply (fmap_fixed (λ a, {| input := _mapSchema (input a);
                                 output := _mapSchema (output a) |}));
        [|exact Hk]. congruence. }
    destruct a; simpl in *. congruence.
  - assert (Hmsgs : _mapSchema <$> messages c = messages c).
    { injection Hchans as Hchans.
      assert (Hfix := proj1 (fmap_fixed _ m) Hchans k c Hk).
      simpl in Hfix. destruct c; simpl in *. congruence. }
    eapply fmap_fixed; [exact Hmsgs|exact Hj].
Qed.

Lemma mapIntegration_twice_of_leaves i :
  (∀ x, SchemaLeaf (_mapIntegration i) x → mapZodToJsonSchema x = schema x) →
  _mapIntegration (_mapIntegration i) = _mapIntegration i.
Proof.
  intros Hfix.
  assert (Hleaf : ∀ x, SchemaLeaf (_mapIntegration i) x → _mapSchema x = x).
  { intros x Hx. by apply _mapSchema_fixed, Hfix. }
  clear Hfix.
  apply IntegrationDefinition_eq; simpl; try reflexivity.
  - f_equal. apply Hleaf. by constructor 1.
  - f_equal. apply fmap_fixed. intros k x Hk.
    apply Hleaf. by econstructor 2.
  - f_equal. apply fmap_fixed. intros k x Hk.
    apply Hleaf. by econstructor 3.
  - f_equal. apply fmap_fixed. intros k a Hk.
    rewrite (Hleaf (input a)) by (by econstructor 4).
    rewrite (Hleaf (output a)) by (by econstructor 5).
    by destruct a.
  - f_equal. apply fmap_fixed. intros k c Hk.
    assert (Hmsgs : _mapSchema <$> messages c = messages c).
    { apply fmap_fixed. intros j x Hj. apply Hleaf. by econstructor 6. }
    rewrite Hmsgs.
    destruct (mapIntegration_channels i _ k c eq_refl Hk) as (? & ? & ? & Hconv & Hmsg).
    destruct c as [conv msg msgs]. simpl in *. by rewrite Hconv, Hmsg.
Qed.

(** The schema-bearing objects of a mapped definition come from the mapper:
    each is the default configuration or a result of [_mapSchema]. *)
Lemma SchemaLeaf_mapIntegration i x :
  SchemaLeaf (_mapIntegration i) x →
  x = {| schema := emptyObject; rest := noProps |} ∨ ∃ y, x = _mapSchema y.
Proof.
  intros [x' Hc|m k x' Hm Hk|m k x' Hm Hk|m k a Hm Hk|m k a Hm Hk|m k c j x' Hm Hk Hj];
    simpl in Hc || simpl in Hm.
  - injection Hc as <-. destruct (configuration i); eauto.
  - injection Hm as <-. destruct (events i) as [e|]; [|by rewrite lookup_empty in Hk].
    apply lookup_fmap_Some in Hk as (y & <- & _). eauto.
  - injection Hm as <-. destruct (states i) as [e|]; [|by rewrite lookup_empty in Hk].
    apply lookup_fmap_Some in Hk as (y & <- & _). eauto.
  - injection Hm as <-. destruct (actions i) as [e|]; [|by rewrite lookup_empty in Hk].
    apply lookup_fmap_Some in Hk as (y & <- & _). simpl. eauto.
  - injection Hm as <-. destruct (actions i) as [e|]; [|by rewrite lookup_empty in Hk].
    apply lookup_fmap_Some in Hk as (y & <- & _). simpl. eauto.
  - injection Hm as <-. destruct (channels i) as [e|]; [|by rewrite lookup_empty in Hk].
    apply lookup_fmap_Some in Hk as (y & <- & _). simpl in Hj.
    apply lookup_fmap_Some in Hj as (z & <- & _). eauto.
Qed.

(** Running the mapper on its own result gives that result again exactly
    when the schema translator, applied to any schema-bearing object of the
    result, returns the schema the object already holds.  Nothing but the
    [schema] properties is at stake; what the translator does there is
    decided in [../utils]. *)
Lemma mapIntegration_twice i :
  _mapIntegration (_mapIntegration i) = _mapIntegration i ↔
  ∀ x, SchemaLeaf (_mapIntegration i) x → mapZodToJsonSchema x = schema x.
Proof.
  split.
  - apply mapIntegration_fixed_leaves.
  - apply mapIntegration_twice_of_leaves.
Qed.

(** For a definition without a configuration a second run translates the
    default [{ schema: {} }]: it can only leave the result alone if the
    translator answers [{}] to it. *)
Lemma mapIntegration_twice_default i :
  configuration i = None →
  _mapIntegration (_mapIntegration i) = _mapIntegration i →
  mapZodToJsonSchema {| schema := emptyObject; rest := noProps |} = emptyObject.
Proof.
  intros Hnone Htwice.
  apply (mapIntegration_fixed_leaves _ Htwice {| schema := emptyObject; rest := noProps |}).
  constructor 1. simpl. by rewrite Hnone.
Qed.

End MapperProperties.

(** The demo definition has no configuration, events, states, channels or
    user: the mapper gives it the empty ones. *)
Lemma mapIntegration_absent_sections_demo :
  let d := Demo.demo Translator.utils Translator.Structural in
  configuration (_mapIntegration d)
  = Some {| schema := Translator.Portable Translator.emptyObjectNode; rest := [] |} ∧
  events (_mapIntegration d) = Some ∅ ∧
  states (_mapIntegration d) = Some ∅ ∧
  channels (_mapIntegration d) = Some ∅ ∧
  user (_mapIntegration d) ≫= user_creation
  = Some {| enabled := false; requiredTags := [] |}.
Proof.
  intros d.
  destruct (mapIntegration_absent_sections d) as (_ & Hcfg & Hevs & Hsts & Hrule & Hchans & _).
  split; [apply Hcfg; reflexivity|].
  split; [apply Hevs; reflexivity|].
  split; [apply Hsts; reflexivity|].
  split; [apply Hchans; reflexivity|].
  apply Hrule; reflexivity.
Defined.

(** ** The heap *)

Section HeapProperties.
Context `{Utils}.

Lemma new_app (o : ModuleObj) (h l : Heap) :
  new o (h ++ l) = (length h + length l, h ++ (l ++ [o])).
Proof. unfold new. by rewrite length_app, app_assoc. Qed.

Lemma unshift_app segment k (h l : Heap) :
  unshift segment (length h + k) (h ++ l) = (tt, h ++ (unshift segment k l).2).
Proof. unfold unshift. cbn [snd]. f_equal. apply alter_app_r. Qed.

Lemma pushDep_app dep k (h l : Heap) :
  pushDep dep (length h + k) (h ++ l) = (tt, h ++ (pushDep dep k l).2).
Proof. unfold pushDep. cbn [snd]. f_equal. apply alter_app_r. Qed.

Lemma lookup_created (h l : Heap) k : (h ++ l) !! (length h + k) = l !! k.
Proof. rewrite lookup_app_r by lia. f_equal. lia. Qed.

Lemma lookup_created_first (h l : Heap) : (h ++ l) !! length h = l !! 0.
Proof. rewrite <- (lookup_created h l 0). f_equal. lia. Qed.

End HeapProperties.

(** One operation on a heap [h ++ l], of which [l] is known. *)
Ltac js_step :=
  first [ rewrite new_app | rewrite unshift_app | rewrite pushDep_app ];
  cbn [app length fst snd].

(** ** The index module *)

Section IndexModuleProperties.
Context `{Generators}.

(** [create] allocates six modules after those of the heap and returns the
    last of them. *)
Lemma create_heap sdkIntegration (h : Heap) :
  create sdkIntegration h = (length h + 5, h ++ created sdkIntegration (length h)).
Proof.
  unfold create, mbind, Js_bind, mret, Js_ret.
  rewrite <- (app_nil_r h) at 1.
  repeat js_step.
  unfold unshift, pushDep, created, mounted, leaf. simpl.
  by rewrite Nat.add_0_r.
Qed.

Lemma indexContent_create sdkIntegration (h : Heap) :
  indexContent (length h + 5) (h ++ created sdkIntegration (length h))
  = Some (indexText sdkIntegration).
Proof.
  unfold indexContent. rewrite lookup_created. simpl.
  rewrite lookup_created_first, !lookup_created.
  reflexivity.
Qed.

Lemma indexLines_shape this integration cfg acts chans evs sts :
  indexLines this integration cfg acts chans evs sts
  = [GENERATED_HEADER; "import * as sdk from " +:+ dq +:+ "@botpress/sdk" +:+ dq; EmptyString]
    ++ ((λ m, importLine (leafName m) (leafImport this m)) <$> [cfg; acts; chans; evs; sts])
    ++ ((λ m, exportLine (leafName m) (leafImport this m)) <$> [cfg; acts; chans; evs; sts])
    ++ [EmptyString]
    ++ compositeType
         [ ("name", dq +:+ name integration +:+ dq);
           ("version", dq +:+ version integration +:+ dq);
           ("configuration", leafName cfg +:+ "." +:+ exports cfg);
           ("actions", leafName acts +:+ "." +:+ exports acts);
           ("channels", leafName chans +:+ "." +:+ exports chans);
           ("events", leafName evs +:+ "." +:+ exports evs);
           ("states", leafName sts +:+ "." +:+ exports sts);
           ("user", stringifySingleLine (user integration)) ]
    ++ wrappers.
Proof. reflexivity. Qed.


(** The content of the module [create] returns, by its lines. *)
Lemma indexContent_lines sdkIntegration (h : Heap) :
  let h' := (create sdkIntegration h).2 in
  let inst := (create sdkIntegration h).1 in
  ∃ index cfg acts chans evs sts,
    h' !! inst = Some index ∧
    mapM (λ d, h' !! d) (dependencies index) = Some [cfg; acts; chans; evs; sts] ∧
    [cfg; acts; chans; evs; sts] = take 5 (created sdkIntegration 0) ∧
    indexContent inst h'
    = Some (GENERATED_HEADER +:+
            join nl (indexLines (def index) (_mapIntegration sdkIntegration)
                       cfg acts chans evs sts)).
Proof.
  intros h' inst. subst h' inst. rewrite create_heap. cbn [fst snd].
  eexists _, _, _, _, _, _. split; [|split; [|split]].
  - rewrite lookup_created. reflexivity.
  - cbn [dependencies mapM mbind option_bind].
    rewrite lookup_created_first, !lookup_created. reflexivity.
  - reflexivity.
  - by rewrite indexContent_create.
Qed.



(** C9: for every definition, the content of the index module [create]
    builds starts with the header twice: once as the initial value of the
    string, once as the first of the joined lines. *)
Theorem indexContent_header_twice sdkIntegration (h : Heap) :
  ∃ lines more,
    indexContent (create sdkIntegration h).1 (create sdkIntegration h).2
    = Some (GENERATED_HEADER +:+ join nl (GENERATED_HEADER :: lines)) ∧
    join nl (GENERATED_HEADER :: lines) = GENERATED_HEADER +:+ more ∧
    indexContent (create sdkIntegration h).1 (create sdkIntegration h).2
    = Some (GENERATED_HEADER +:+ GENERATED_HEADER +:+ more).
Proof.
  destruct (indexContent_lines sdkIntegration h)
    as (index & cfg & acts & chans & evs & sts & _ & _ & _ & Hcontent).
  rewrite Hcontent, indexLines_shape. cbn [app].
  eexists _, _. split; [reflexivity|]. split; reflexivity.
Qed.

(** C10: for every definition, the module [create] returns exports
    [Integration] and has the path [INDEX_FILE], and its dependencies are
    the five leaf modules in the order configuration, actions, channels,
    events, states, each with the segment of that name put in front of the
    path its generator gave it. *)
Theorem create_index_module sdkIntegration (h : Heap) :
  let integration := _mapIntegration sdkIntegration in
  let inst := (create sdkIntegration h).1 in
  let h' := (create sdkIntegration h).2 in
  ∃ index config acts chans evs sts,
    h' !! inst = Some index ∧
    exportName (def index) = "Integration" ∧
    path (def index) = [INDEX_FILE] ∧
    dependencies index = [config; acts; chans; evs; sts] ∧
    path ∘ def <$> h' !! config
      = Some ("configuration" :: path (ConfigurationModule_create
                (nullish (configuration integration)
                   {| schema := emptyObject; rest := noProps |}))) ∧
    path ∘ def <$> h' !! acts
      = Some ("actions" :: path (ActionsModule_create (nullish (actions integration) ∅))) ∧
    path ∘ def <$> h' !! chans
      = Some ("channels" :: path (ChannelsModule_create (nullish (channels integration) ∅))) ∧
    path ∘ def <$> h' !! evs
      = Some ("events" :: path (EventsModule_create (nullish (events integration) ∅))) ∧
    path ∘ def <$> h' !! sts
      = Some ("states" :: path (StatesModule_create (nullish (states integration) ∅))).
Proof.
  intros integration inst h'. subst inst h'. rewrite create_heap. cbn [fst snd].
  eexists _, _, _, _, _, _.
  split; [rewrite lookup_created; reflexivity|].
  cbn [def dependencies exportName path].
  repeat split; rewrite ?lookup_created, ?lookup_created_first; reflexivity.
Qed.


End IndexModuleProperties.

(** The content of the index module of the demo definition: the header
    twice, the imports and exports of the five sections, the type
    [TIntegration] and the three declarations that use it, one line each. *)
Lemma indexContent_demo :
  @indexContent _ Demo.sectionNames 5 Demo.modules = Some Demo.indexFile.
Proof. vm_compute. reflexivity. Qed.




(** ** The loader *)

Section LoaderProperties.
Context `{Utils}.

(** C6, as the code has it: where the definition file does not exist, the
    loader writes a debug message and returns [undefined] without calling
    the bundler; where the bundler gives no output file, it throws the
    [BotpressCLIError] [Could not read integration definition]; what the
    bundler or the evaluation of its output throws reaches the caller as it
    is; and the bundler and the evaluation run once at most. *)
Theorem readIntegrationDefinitionFromFS_outcomes (w : World) (paths : ProjectPaths) :
  let trace := (readIntegrationDefinitionFromFS w paths).1 in
  let outcome := (readIntegrationDefinitionFromFS w paths).2 in
  (existsSync w (abs_definition paths) = false →
     outcome = Returned None ∧
     trace = [ExistsSync (abs_definition paths);
              LoggerDebug ("Integration definition not found at " +:+ rel_definition paths)]) ∧
  (existsSync w (abs_definition paths) = true →
     (∀ e, buildEntrypoint w (buildProps paths) = Threw e → outcome = Threw e) ∧
     (buildEntrypoint w (buildProps paths) = Returned [] →
        outcome = Threw (BotpressCLIError "Could not read integration definition")) ∧
     (∀ artifact others e,
        buildEntrypoint w (buildProps paths) = Returned (artifact :: others) →
        requireJsCode w (text artifact) = Threw e → outcome = Threw e)) ∧
  length (filter isBuild trace) ≤ 1 ∧
  length (filter isRequire trace) ≤ 1.
Proof.
  unfold readIntegrationDefinitionFromFS.
  destruct (existsSync w (abs_definition paths)); simpl.
  - split; [done|]. split.
    + intros _. repeat split.
      * by intros e ->.
      * by intros ->.
      * intros artifact others e -> Hr. simpl. by rewrite Hr.
    + destruct (buildEntrypoint w (buildProps paths)) as [[|artifact others]|e];
        simpl; [lia| |lia].
      destruct (requireJsCode w (text artifact)); simpl; lia.
  - repeat split; try done; lia.
Qed.

End LoaderProperties.

(** A counterexample to C6, where the definition file cannot be found: the
    loader returns [undefined] and throws nothing. *)
Lemma readIntegrationDefinitionFromFS_not_found :
  existsSync Demo.noDefinitionFile (abs_definition Demo.paths) = false ∧
  (readIntegrationDefinitionFromFS Demo.noDefinitionFile Demo.paths).2 = Returned None ∧
  ∀ e, (readIntegrationDefinitionFromFS Demo.noDefinitionFile Demo.paths).2 ≠ Threw e.
Proof. repeat split. intros e. discriminate. Qed.

(** Without a definition file the loader returns [undefined] after its debug
    message; with a bundler that gives no output file it throws. *)
Lemma readIntegrationDefinitionFromFS_outcomes_demo :
  readIntegrationDefinitionFromFS Demo.noDefinitionFile Demo.paths
  = ([ExistsSync "/work/integration.definition.ts";
      LoggerDebug "Integration definition not found at integration.definition.ts"],
     Returned None) ∧
  (readIntegrationDefinitionFromFS Demo.noArtifact Demo.paths).2
  = Threw (BotpressCLIError "Could not read integration definition").
Proof.
  split.
  - destruct (readIntegrationDefinitionFromFS_outcomes Demo.noDefinitionFile Demo.paths)
      as (Hmissing & _).
    destruct (Hmissing eq_refl) as [Houtcome Htrace].
    by apply injective_projections.
  - destruct (readIntegrationDefinitionFromFS_outcomes Demo.noArtifact Demo.paths)
      as (_ & Hexists & _).
    destruct (Hexists eq_refl) as (_ & Hnone & _).
    apply Hnone. reflexivity.
Defined.

(** ** The emitter *)

Section EmitterProperties.

Implicit Types (fs : FileSystem) (p q : list string).

Lemma isDirectory_true fs p :
  isDirectory fs p = true ↔ p = [] ∨ fs !! p = Some Directory.
Proof.
  unfold isDirectory. destruct p as [|s p]; [by split; [left|]|].
  destruct (fs !! (s :: p)) as [[|data]|];
    (split; [try done; by right|by intros [?|?]]).
Qed.

Lemma prefix_cons_nonempty (s : string) q (segments : list string) :
  q `prefix_of` s :: segments → q ≠ [] →
  ∃ q', q = s :: q' ∧ q' `prefix_of` segments.
Proof.
  intros [k Hk] Hq. destruct q as [|s' q']; [done|].
  injection Hk as -> ->. exists q'. split; [done|]. by exists k.
Qed.

(** A successful [mkdir] leaves what was there and makes every directory on
    the way. *)
Lemma mkdirBelow_Ok parent segments fs fs' :
  mkdirBelow parent segments fs = Ok fs' →
  (∀ p e, fs !! p = Some e → fs' !! p = Some e) ∧
  (∀ q, q `prefix_of` segments → q ≠ [] → fs' !! (parent ++ q) = Some Directory).
Proof.
  revert parent fs. induction segments as [|s segments IH]; intros parent fs Hok.
  - injection Hok as <-. split; [done|].
    intros q Hq Hne. apply prefix_nil_inv in Hq. done.
  - simpl in Hok.
    destruct (fs !! (parent ++ [s])) as [[|data]|] eqn:Hp; [| done |].
    + destruct (IH _ _ Hok) as [Hkeep Hdirs]. split; [done|].
      intros q Hq Hne.
      destruct (prefix_cons_nonempty _ _ _ Hq Hne) as (q' & -> & Hq').
      destruct q' as [|s' q'].
      * by apply Hkeep.
      * rewrite cons_middle, app_assoc. by apply Hdirs.
    + destruct (IH _ _ Hok) as [Hkeep Hdirs]. split.
      * intros p e He. apply Hkeep. rewrite lookup_insert_ne; [done|].
        intros <-. congruence.
      * intros q Hq Hne.
        destruct (prefix_cons_nonempty _ _ _ Hq Hne) as (q' & -> & Hq').
        destruct q' as [|s' q'].
        -- apply Hkeep. by rewrite lookup_insert_eq.
        -- rewrite cons_middle, app_assoc. by apply Hdirs.
Qed.

(** Where the directories are there already, [mkdir] changes nothing and
    reports no error. *)
Lemma mkdirBelow_existing parent segments fs :
  (∀ q, q `prefix_of` segments → q ≠ [] → fs !! (parent ++ q) = Some Directory) →
  mkdirBelow parent segments fs = Ok fs.
Proof.
  revert parent. induction segments as [|s segments IH]; intros parent Hdirs; [done|].
  simpl. rewrite (Hdirs [s]); [|by exists segments|done].
  apply IH. intros q Hq Hne.
  rewrite <- app_assoc. simpl. apply Hdirs; [|done].
  by apply prefix_cons.
Qed.

Lemma mkdir_recursive_Ok p fs fs' :
  mkdir_recursive p fs = Ok fs' → directoryPath fs' p.
Proof.
  intros Hok q Hq. apply isDirectory_true.
  destruct q as [|s q]; [by left|right].
  by apply (mkdirBelow_Ok [] p fs fs' Hok).
Qed.

Lemma mkdir_recursive_existing p fs :
  directoryPath fs p → mkdir_recursive p fs = Ok fs.
Proof.
  intros Hdir. apply mkdirBelow_existing. intros q Hq Hne. simpl.
  destruct (proj1 (isDirectory_true fs q) (Hdir q Hq)); done.
Qed.

Lemma length_dirname p : p ≠ [] → length p = S (length (dirname p)).
Proof.
  intros Hp. rewrite (app_removelast_last EmptyString Hp) at 1.
  rewrite length_app. simpl. unfold dirname. lia.
Qed.

(** Writing a file leaves the directories above it as they are. *)
Lemma writeFile_Ok p data fs fs' :
  writeFile p data fs = Ok fs' →
  directoryPath fs (dirname p) → directoryPath fs' (dirname p).
Proof.
  intros Hw Hdir q Hq. unfold writeFile in Hw.
  destruct p as [|s p]; [done|].
  destruct (isDirectory fs (dirname (s :: p)));
    [|by destruct (fs !! dirname (s :: p)) as [[|?]|]].
  assert (Hne : s :: p ≠ q).
  { intros <-. apply prefix_length in Hq.
    rewrite (length_dirname (s :: p)) in Hq by done. lia. }
  apply isDirectory_true.
  destruct (proj1 (isDirectory_true fs q) (Hdir q Hq)) as [->|Hd]; [by left|right].
  destruct (fs !! (s :: p)) as [[|?]|]; [done| |];
    injection Hw as <-; by rewrite lookup_insert_ne.
Qed.

Variable absoluteFrom : list string → list string → list string.

Lemma writeGeneratedFilesToOutFolder_app outDir pre post fs :
  writeGeneratedFilesToOutFolder absoluteFrom outDir (pre ++ post) fs
  = fs' ← writeGeneratedFilesToOutFolder absoluteFrom outDir pre fs;
    writeGeneratedFilesToOutFolder absoluteFrom outDir post fs'.
Proof.
  revert fs. induction pre as [|file pre IH]; intros fs; [done|].
  simpl. destruct (writeGeneratedFile absoluteFrom outDir file fs); [|done].
  apply IH.
Qed.

(** C7: for every list of files and each file in it, the emitter first makes
    the directory of the file's destination, then writes the file; after
    that [mkdir] the directory and all directories above it exist; and where
    they exist already, as for a second file of the same directory, [mkdir]
    succeeds and changes nothing. *)
Theorem writeGeneratedFilesToOutFolder_mkdir_first outDir pre file post fs :
  let filePath := absoluteFrom outDir (file_path file) in
  let dirPath := dirname filePath in
  writeGeneratedFilesToOutFolder absoluteFrom outDir (pre ++ file :: post) fs
  = (fs ← writeGeneratedFilesToOutFolder absoluteFrom outDir pre fs;
     fs ← mkdir_recursive dirPath fs;
     fs ← writeFile filePath (file_content file) fs;
     writeGeneratedFilesToOutFolder absoluteFrom outDir post fs) ∧
  (∀ fs0 fs1, mkdir_recursive dirPath fs0 = Ok fs1 → directoryPath fs1 dirPath) ∧
  (∀ fs0, directoryPath fs0 dirPath → mkdir_recursive dirPath fs0 = Ok fs0) ∧
  (∀ fs0 fs1 other,
      writeGeneratedFile absoluteFrom outDir file fs0 = Ok fs1 →
      dirname (absoluteFrom outDir (file_path other)) = dirPath →
      mkdir_recursive (dirname (absoluteFrom outDir (file_path other))) fs1 = Ok fs1).
Proof.
  intros filePath dirPath. repeat split.
  - rewrite writeGeneratedFilesToOutFolder_app.
    destruct (writeGeneratedFilesToOutFolder absoluteFrom outDir pre fs) as [fs0|e];
      [|done].
    simpl. unfold writeGeneratedFile. fold filePath. fold dirPath.
    destruct (mkdir_recursive dirPath fs0) as [fs1|e]; [|done]. simpl.
    by destruct (writeFile filePath (file_content file) fs1).
  - intros fs0 fs1. apply mkdir_recursive_Ok.
  - intros fs0. apply mkdir_recursive_existing.
  - intros fs0 fs1 other Hw ->. apply mkdir_recursive_existing.
    unfold writeGeneratedFile in Hw. fold filePath in Hw. fold dirPath in Hw.
    destruct (mkdir_recursive dirPath fs0) as [fs'|e] eqn:Hm; [|done].
    simpl in Hw. eapply writeFile_Ok; [exact Hw|].
    by eapply mkdir_recursive_Ok.
Qed.

End EmitterProperties.

(** Two files of the directory [out/actions], from an empty file system: the
    first [mkdir] makes [out] and [out/actions], the second changes
    nothing. *)
Lemma writeGeneratedFilesToOutFolder_demo :
  ∃ fs0 fs1,
    mkdir_recursive ["out"; "actions"] ∅ = Ok fs0 ∧
    directoryPath fs0 ["out"; "actions"] ∧
    writeGeneratedFile Demo.joinPaths ["out"] Demo.actionsIndex ∅ = Ok fs1 ∧
    mkdir_recursive (dirname (Demo.joinPaths ["out"] (file_path Demo.actionsPing))) fs1
    = Ok fs1.
Proof.
  destruct (writeGeneratedFilesToOutFolder_mkdir_first Demo.joinPaths ["out"] []
              Demo.actionsIndex [Demo.actionsPing] ∅)
    as (_ & Hmkdir & _ & Hshared).
  eexists _, _.
  split; [reflexivity|].
  split; [apply (Hmkdir ∅); reflexivity|].
  split; [reflexivity|].
  apply (Hshared ∅); reflexivity.
Defined.

(** ** Splitting a text *)

Section StringProperties.
Implicit Types (s t a b : string).

Lemma append_cons c s t : String c s +:+ t = String c (s +:+ t).
Proof. reflexivity. Qed.

Lemma append_nil_l s : EmptyString +:+ s = s.
Proof. reflexivity. Qed.

Lemma append_nil_r s : s +:+ EmptyString = s.
Proof. induction s as [|c s IH]; [done|]. by rewrite append_cons, IH. Qed.

Lemma append_assoc a b t : (a +:+ b) +:+ t = a +:+ b +:+ t.
Proof. induction a as [|c a IH]; [done|]. by rewrite !append_cons, IH. Qed.

Lemma length_append a b : String.length (a +:+ b) = String.length a + String.length b.
Proof. induction a as [|c a IH]; [done|]. rewrite append_cons. simpl. by rewrite IH. Qed.

Lemma prefix_append s t : String.prefix s t = true ↔ ∃ b, t = s +:+ b.
Proof.
  revert t. induction s as [|c s IH]; intros t.
  - destruct t; simpl; split; eauto.
  - destruct t as [|c' t]; simpl.
    + split; [done|]. by intros [b ?].
    + destruct (Ascii.ascii_dec c c') as [->|Hne].
      * rewrite IH. split; intros [b Hb]; exists b; rewrite ?append_cons in *; congruence.
      * split; [done|]. intros [b Hb]. rewrite append_cons in Hb. congruence.
Qed.

Lemma index_occurs s a b : ∃ j, String.index 0 s (a +:+ s +:+ b) = Some j.
Proof.
  induction a as [|c a [j IH]].
  - rewrite append_nil_l.
    assert (Hp : String.prefix s (s +:+ b) = true) by (apply prefix_append; eauto).
    destruct (s +:+ b) as [|c t] eqn:Ht.
    + destruct s; [by exists 0|discriminate].
    + cbn [String.index]. rewrite Hp. by exists 0.
  - rewrite append_cons. cbn [String.index].
    destruct (String.prefix s _); [by eexists|]. rewrite IH. by eexists.
Qed.

Lemma index_first s t i :
  String.index 0 s t = Some i →
  ∃ a b, t = a +:+ s +:+ b ∧ String.length a = i ∧
         ∀ a' b', t = a' +:+ s +:+ b' → i ≤ String.length a'.
Proof.
  revert i. induction t as [|c t IH]; intros i.
  - simpl. destruct s as [|c' s]; [|done].
    intros [= <-]. exists EmptyString, EmptyString. repeat split. intros; lia.
  - cbn [String.index]. destruct (String.prefix s (String c t)) eqn:Hp.
    + apply prefix_append in Hp as [b Hb].
      intros [= <-]. exists EmptyString, b. repeat split; [done|]. intros; lia.
    + assert (Hnot : ∀ b, String c t ≠ s +:+ b).
      { intros b Hb.
        assert (String.prefix s (String c t) = true) by (apply prefix_append; eauto).
        congruence. }
      destruct (String.index 0 s t) as [j|] eqn:Hj; [|done].
      destruct (IH j eq_refl) as (a & b & Ht & Hlen & Hmin).
      intros [= <-]. exists (String c a), b. rewrite append_cons. simpl.
      repeat split; [by rewrite Ht|by rewrite Hlen|].
      intros a' b' Ht'. destruct a' as [|c' a']; [by destruct (Hnot b')|].
      rewrite append_cons in Ht'. injection Ht' as -> Ht'.
      specialize (Hmin _ _ Ht'). simpl. lia.
Qed.

(** [index] finds the first place where the separator stands. *)
Lemma index_Some s t i :
  String.index 0 s t = Some i ↔
  ∃ a b, t = a +:+ s +:+ b ∧ String.length a = i ∧
         ∀ a' b', t = a' +:+ s +:+ b' → i ≤ String.length a'.
Proof.
  split; [apply index_first|].
  intros (a & b & -> & <- & Hmin).
  destruct (index_occurs s a b) as [j Hj]. rewrite Hj. f_equal.
  destruct (index_first _ _ _ Hj) as (a' & b' & Ht & <- & Hmin').
  specialize (Hmin _ _ Ht). specialize (Hmin' _ _ eq_refl). lia.
Qed.

Lemma index_None s t :
  String.index 0 s t = None ↔ ∀ a b, t ≠ a +:+ s +:+ b.
Proof.
  split.
  - intros Hnone a b ->. destruct (index_occurs s a b) as [j Hj]. congruence.
  - intros Hnot. destruct (String.index 0 s t) as [i|] eqn:Hi; [|done].
    destruct (index_first _ _ _ Hi) as (a & b & Ht & _). by destruct (Hnot a b).
Qed.

Lemma substring_append_l a t : String.substring 0 (String.length a) (a +:+ t) = a.
Proof.
  induction a as [|c a IH]; [by destruct t|].
  rewrite append_cons. simpl. by rewrite IH.
Qed.

Lemma substring_all t n : String.length t ≤ n → String.substring 0 n t = t.
Proof.
  revert n. induction t as [|c t IH]; intros n Hn; [by destruct n|].
  destruct n as [|n]; simpl in *; [lia|]. rewrite IH; [done|lia].
Qed.

Lemma substring_append_r a t n m :
  String.substring (String.length a + n) m (a +:+ t) = String.substring n m t.
Proof. induction a as [|c a IH]; [done|]. rewrite append_cons. simpl. exact IH. Qed.

Lemma sliceTo_append a t : sliceTo (String.length a) (a +:+ t) = a.
Proof. apply substring_append_l. Qed.

Lemma sliceFrom_append a t : sliceFrom (String.length a) (a +:+ t) = t.
Proof.
  unfold sliceFrom. rewrite <- (Nat.add_0_r (String.length a)) at 1.
  rewrite substring_append_r, length_append. apply substring_all. lia.
Qed.

End StringProperties.

Section SplitProperties.
Implicit Types (s t a b : string).

Lemma append_eq_app a x a' y :
  a +:+ x = a' +:+ y → String.length a' ≤ String.length a →
  ∃ m, a = a' +:+ m ∧ y = m +:+ x.
Proof.
  revert a. induction a' as [|c a' IH]; intros a Heq Hlen.
  - exists a. by rewrite !append_nil_l in *.
  - destruct a as [|c0 a]; simpl in Hlen; [lia|].
    rewrite !append_cons in Heq. injection Heq as -> Heq.
    destruct (IH a Heq) as (m & -> & ->); [lia|]. by exists m.
Qed.

Lemma _splitOnce_at a c tail b :
  (∀ a' b', a +:+ String c tail +:+ b = a' +:+ String c tail +:+ b' →
            String.length a ≤ String.length a') →
  _splitOnce (a +:+ String c tail +:+ b) (String c tail) = (a, Some (tail +:+ b)).
Proof.
  intros Hmin. unfold _splitOnce, indexOf.
  assert (Hi : String.index 0 (String c tail) (a +:+ String c tail +:+ b)
               = Some (String.length a)).
  { apply index_Some. by exists a, b. }
  rewrite Hi, sliceTo_append. do 2 f_equal.
  replace (a +:+ String c tail +:+ b)
    with ((a +:+ String c EmptyString) +:+ tail +:+ b)
    by (by rewrite append_assoc, !append_cons, append_nil_l).
  replace (String.length a + 1) with (String.length (a +:+ String c EmptyString))
    by (rewrite length_append; simpl; lia).
  apply sliceFrom_append.
Qed.

Lemma _splitOnce_None text separator key :
  _splitOnce text separator = (key, None) →
  key = text ∧ ∀ a b, text ≠ a +:+ separator +:+ b.
Proof.
  unfold _splitOnce, indexOf. rewrite <- index_None.
  destruct (String.index 0 separator text) as [i|]; [done|]. by intros [= <-].
Qed.

Lemma _splitOnce_Some text key value c tail :
  _splitOnce text (String c tail) = (key, Some value) →
  ∃ b, text = key +:+ String c tail +:+ b ∧ value = tail +:+ b ∧
       ∀ a' b', text = a' +:+ String c tail +:+ b' → String.length key ≤ String.length a'.
Proof.
  intros Hsplit.
  assert (∃ i, String.index 0 (String c tail) text = Some i) as [i Hi].
  { unfold _splitOnce, indexOf in Hsplit.
    destruct (String.index 0 (String c tail) text); [by eexists|done]. }
  apply index_first in Hi as (a & b & -> & <- & Hmin).
  rewrite _splitOnce_at in Hsplit by done. injection Hsplit as <- <-.
  by exists b.
Qed.

(** Splitting on a single character, and what was split. *)
Lemma _splitOnce_char key value c :
  (∀ a b, key ≠ a +:+ String c EmptyString +:+ b) →
  _splitOnce (key +:+ String c EmptyString +:+ value) (String c EmptyString)
  = (key, Some value).
Proof.
  intros Hfree. rewrite <- (append_nil_l value) at 2. apply _splitOnce_at.
  intros a' b' Heq.
  destruct (decide (String.length key ≤ String.length a')) as [|Hlt]; [done|].
  apply append_eq_app in Heq as (m & -> & Hm); [|lia].
  rewrite length_append in Hlt. destruct m as [|c' m]; [simpl in Hlt; lia|].
  rewrite !append_cons, !append_nil_l in Hm. injection Hm as <- _.
  by destruct (Hfree a' m).
Qed.

Lemma _splitOnce_char_inv text key value c :
  _splitOnce text (String c EmptyString) = (key, Some value) →
  text = key +:+ String c EmptyString +:+ value
  ∧ ∀ a b, key ≠ a +:+ String c EmptyString +:+ b.
Proof.
  intros Hsplit. apply _splitOnce_Some in Hsplit as (b & -> & -> & Hmin).
  rewrite append_nil_l. split; [done|].
  intros a b0 ->.
  assert (Heq : (a +:+ String c EmptyString +:+ b0) +:+ String c EmptyString +:+ b
                = a +:+ String c EmptyString +:+ (b0 +:+ String c EmptyString +:+ b))
    by (by rewrite !append_assoc).
  specialize (Hmin _ _ Heq). rewrite !length_append in Hmin. simpl in Hmin. lia.
Qed.

End SplitProperties.

(** X1: without the separator in the text, [_splitOnce] returns the text and
    no value, and only then. *)
Theorem _splitOnce_absent (text separator key : string) :
  _splitOnce text separator = (key, None) ↔
  key = text ∧ ∀ a b, text ≠ a +:+ separator +:+ b.
Proof.
  unfold _splitOnce, indexOf. rewrite <- index_None.
  destruct (String.index 0 separator text) as [i|].
  - split; [done|]. by intros [_ ?].
  - split; [by intros [= <-]|]. by intros [-> _].
Qed.

(** X2: [_splitOnce] cuts at the first place where the separator stands: the
    key is what precedes it, and the value is what follows the separator's
    first character. *)
Theorem _splitOnce_first (text key value : string) (c : Ascii.ascii) (tail : string) :
  _splitOnce text (String c tail) = (key, Some value) ↔
  ∃ b, text = key +:+ String c tail +:+ b ∧ value = tail +:+ b ∧
       ∀ a' b', text = a' +:+ String c tail +:+ b' → String.length key ≤ String.length a'.
Proof.
  split; [apply _splitOnce_Some|].
  intros (b & -> & -> & Hmin). by apply _splitOnce_at.
Qed.

(** X3: splitting on a single character inverts joining with it: the text is
    the key, the character and the value, and the key is free of the
    character. *)
Theorem _splitOnce_join (text key value : string) (c : Ascii.ascii) :
  _splitOnce text (String c EmptyString) = (key, Some value) ↔
  text = key +:+ String c EmptyString +:+ value ∧
  ∀ a b, key ≠ a +:+ String c EmptyString +:+ b.
Proof.
  split; [apply _splitOnce_char_inv|].
  intros [-> Hfree]. by apply _splitOnce_char.
Qed.

(** ** Objects built by assignment *)

Section JsObjectProperties.
Context {V : Type}.
Implicit Types (o : JsObject V) (k : string) (v : V).

Lemma ownProperty_None o k : ownProperty o k = None ↔ k ∉ keys o.
Proof.
  unfold keys. induction o as [|[k' v'] o IH]; simpl.
  - split; [intros _; apply not_elem_of_nil|done].
  - rewrite not_elem_of_cons. destruct (decide (k' = k)) as [->|Hne].
    + split; [done|]. by intros [? _].
    + rewrite IH. split; [by intros ?; split|by intros [_ ?]].
Qed.

Lemma ownProperty_is_Some o k : is_Some (ownProperty o k) ↔ k ∈ keys o.
Proof.
  destruct (ownProperty o k) eqn:Ho.
  - split; [|by eauto]. intros _. destruct (decide (k ∈ keys o)) as [|Hn]; [done|].
    apply ownProperty_None in Hn. congruence.
  - split; [by intros [? ?]|]. intros Hin. by apply ownProperty_None in Ho.
Qed.

Lemma ownProperty_replace o k v k' :
  ownProperty (replace k v o) k'
  = if decide (k = k') then (λ _, v) <$> ownProperty o k else ownProperty o k'.
Proof.
  induction o as [|[k0 v0] o IH]; simpl; [by case_decide|].
  destruct (decide (k0 = k)) as [->|Hne]; simpl.
  - destruct (decide (k = k')) as [->|?]; simpl; by rewrite ?decide_True.
  - rewrite IH. destruct (decide (k0 = k')) as [->|?]; [|done].
    by rewrite decide_False by done.
Qed.

Lemma ownProperty_app o1 o2 k :
  ownProperty (o1 ++ o2) k
  = match ownProperty o1 k with Some v => Some v | None => ownProperty o2 k end.
Proof.
  induction o1 as [|[k0 v0] o1 IH]; simpl; [done|]. by case_decide.
Qed.

Lemma ownProperty_placeIndex n o k v k' :
  ownProperty o k = None →
  ownProperty (placeIndex n k v o) k' = if decide (k = k') then Some v else ownProperty o k'.
Proof.
  induction o as [|[k0 v0] o IH]; simpl; [done|].
  destruct (decide (k0 = k)) as [->|Hne]; [done|]. intros Ho.
  destruct (arrayIndex k0) as [n'|]; [destruct (n' <? n)%N|]; simpl; try done.
  rewrite IH by done. destruct (decide (k0 = k')) as [->|?]; [|done].
  by rewrite decide_False by done.
Qed.

Lemma ownProperty_place o k v k' :
  ownProperty o k = None →
  ownProperty (place k v o) k' = if decide (k = k') then Some v else ownProperty o k'.
Proof.
  intros Ho. unfold place. destruct (arrayIndex k); [by apply ownProperty_placeIndex|].
  rewrite ownProperty_app. simpl.
  destruct (decide (k = k')) as [->|?]; [by rewrite Ho|].
  by destruct (ownProperty o k').
Qed.

(** Reading back what [defineOwn] wrote. *)
Lemma ownProperty_defineOwn o k v k' :
  ownProperty (defineOwn k v o) k' = if decide (k = k') then Some v else ownProperty o k'.
Proof.
  unfold defineOwn. destruct (ownProperty o k) as [v0|] eqn:Ho.
  - rewrite ownProperty_replace, Ho. by case_decide.
  - by apply ownProperty_place.
Qed.

Lemma ownProperty_assign o k v k' :
  ownProperty (assign k v o) k'
  = if decide (k = k' ∧ k ≠ "__proto__") then Some v else ownProperty o k'.
Proof.
  unfold assign. destruct (decide (k = "__proto__")) as [->|Hne].
  - rewrite decide_False; [done|]. by intros [_ ?].
  - rewrite ownProperty_defineOwn. destruct (decide (k = k')) as [->|?].
    + by rewrite decide_True.
    + rewrite decide_False; [done|]. by intros [? _].
Qed.

Lemma elem_of_keys_defineOwn o k v k' :
  k' ∈ keys (defineOwn k v o) ↔ k' = k ∨ k' ∈ keys o.
Proof.
  rewrite <- !ownProperty_is_Some, ownProperty_defineOwn.
  destruct (decide (k = k')) as [->|Hne].
  - split; [by left|by eauto].
  - split; [by right|]. by intros [->|?].
Qed.

Lemma elem_of_keys_assign o k v k' :
  k' ∈ keys (assign k v o) ↔ (k' = k ∧ k ≠ "__proto__") ∨ k' ∈ keys o.
Proof.
  rewrite <- !ownProperty_is_Some, ownProperty_assign.
  destruct (decide (k = k' ∧ k ≠ "__proto__")) as [[-> ?]|Hne].
  - split; [by left|by eauto].
  - split; [by right|]. intros [[-> ?]|?]; [|done]. by destruct Hne.
Qed.

End JsObjectProperties.

Section JsObjectOrder.
Context {V : Type}.
Implicit Types (o : JsObject V) (k : string) (v : V).

Lemma keys_replace o k v : keys (replace k v o) = keys o.
Proof.
  unfold keys. induction o as [|[k0 v0] o IH]; [done|].
  cbn [replace]. case_decide; rewrite !fmap_cons; [done|]. by rewrite IH.
Qed.

Lemma keys_placeIndex n o k v : keys (placeIndex n k v o) ≡ₚ k :: keys o.
Proof.
  unfold keys. induction o as [|[k0 v0] o IH]; [done|].
  cbn [placeIndex].
  destruct (arrayIndex k0) as [n'|]; [destruct (n' <? n)%N|]; rewrite !fmap_cons; try done.
  rewrite IH. apply Permutation_swap.
Qed.

Lemma keys_place o k v : keys (place k v o) ≡ₚ k :: keys o.
Proof.
  unfold place. destruct (arrayIndex k); [apply keys_placeIndex|].
  unfold keys. rewrite fmap_app. simpl. by rewrite Permutation_app_comm.
Qed.

Lemma NoDup_keys_defineOwn o k v : NoDup (keys o) → NoDup (keys (defineOwn k v o)).
Proof.
  intros Hnd. unfold defineOwn. destruct (ownProperty o k) eqn:Ho.
  - by rewrite keys_replace.
  - rewrite keys_place. apply NoDup_cons. split; [|done]. by apply ownProperty_None.
Qed.

Lemma NoDup_keys_assign o k v : NoDup (keys o) → NoDup (keys (assign k v o)).
Proof. unfold assign. case_decide; [done|]. apply NoDup_keys_defineOwn. Qed.

Lemma mapKeys_fold_keys (f : string → string) o r k :
  k ∈ keys (fold_left (λ result kv, defineOwn (f kv.1) kv.2 result) o r)
  ↔ (∃ k0, k0 ∈ keys o ∧ k = f k0) ∨ k ∈ keys r.
Proof.
  revert r. induction o as [|[k0 v0] o IH]; intros r; simpl.
  - split; [by right|]. intros [(k0 & Hk0 & _)|?]; [|done].
    unfold keys in Hk0. simpl in Hk0. by apply elem_of_nil in Hk0.
  - rewrite IH, elem_of_keys_defineOwn. unfold keys. simpl. split.
    + intros [(k1 & Hk1 & ->)|[->|Hr]].
      * left. exists k1. split; [by apply elem_of_cons; right|done].
      * left. exists k0. split; [by apply elem_of_cons; left|done].
      * by right.
    + intros [(k1 & Hk1 & ->)|Hr]; [|by right; right].
      apply elem_of_cons in Hk1 as [->|Hk1]; [by right; left|].
      left. by exists k1.
Qed.

Lemma mapKeys_fold_frame (f : string → string) o r x :
  (∀ k0, k0 ∈ keys o → f k0 ≠ x) →
  ownProperty (fold_left (λ result kv, defineOwn (f kv.1) kv.2 result) o r) x
  = ownProperty r x.
Proof.
  revert r. induction o as [|[k0 v0] o IH]; intros r Hfree; simpl; [done|].
  rewrite IH, ownProperty_defineOwn.
  - rewrite decide_False; [done|]. apply Hfree. unfold keys. simpl. by apply elem_of_cons; left.
  - intros k1 Hk1. apply Hfree. unfold keys. simpl. by apply elem_of_cons; right.
Qed.

Lemma mapKeys_fold_lookup (f : string → string) o r k v :
  (∀ k1 k2, k1 ∈ keys o → k2 ∈ keys o → f k1 = f k2 → k1 = k2) →
  NoDup (keys o) → ownProperty o k = Some v →
  ownProperty (fold_left (λ result kv, defineOwn (f kv.1) kv.2 result) o r) (f k) = Some v.
Proof.
  revert r. induction o as [|[k0 v0] o IH]; intros r Hinj Hnd Ho; simpl in *; [done|].
  unfold keys in Hnd, Hinj. simpl in Hnd, Hinj. apply NoDup_cons in Hnd as [Hk0 Hnd].
  destruct (decide (k0 = k)) as [->|Hne].
  - injection Ho as ->. rewrite mapKeys_fold_frame.
    + rewrite ownProperty_defineOwn. by rewrite decide_True.
    + intros k1 Hk1 Heq. apply Hinj in Heq.
      * by subst.
      * by apply elem_of_cons; right.
      * by apply elem_of_cons; left.
  - apply IH; [|done..]. intros k1 k2 Hk1 Hk2. apply Hinj; by apply elem_of_cons; right.
Qed.

End JsObjectOrder.

Section OrderProperties.
Context {V : Type}.
Implicit Types (o : JsObject V) (k : string) (v : V).

Lemma head_keys_assign o k v k0 :
  head (keys o) = Some k0 → arrayIndex k = None → head (keys (assign k v o)) = Some k0.
Proof.
  intros Hhead Hk. unfold assign. case_decide; [done|].
  unfold defineOwn. destruct (ownProperty o k).
  - by rewrite keys_replace.
  - unfold place. rewrite Hk. unfold keys in *. rewrite fmap_app.
    by destruct o.
Qed.

End OrderProperties.

(** ** Secrets given on the command line *)

Section ParseProperties.
Implicit Types (secret key value : string) (parsed : JsObject string).

Lemma wellFormed_split secret :
  wellFormed secret ↔ ∃ key c value, _splitOnce secret "=" = (key, Some (String c value)).
Proof.
  split.
  - intros (k & v & -> & Hv).
    destruct (_splitOnce (k +:+ "=" +:+ v) "=") as [key [value|]] eqn:Hsplit.
    + exists key. apply _splitOnce_Some in Hsplit as Hfirst.
      destruct Hfirst as (b & Heq & -> & Hmin). rewrite append_nil_l in *.
      specialize (Hmin _ _ eq_refl).
      apply (f_equal String.length) in Heq. rewrite !length_append in Heq.
      destruct b as [|c b]; [|by eauto].
      destruct v; [done|]. simpl in Heq. lia.
    + apply _splitOnce_None in Hsplit as [_ Hno]. by destruct (Hno k v).
  - intros (key & c & value & Hsplit). apply _splitOnce_char_inv in Hsplit as [-> _].
    by exists key, (String c value).
Qed.

Lemma secret_wellFormed secret :
  wellFormed secret →
  ∃ c value, _splitOnce secret "=" = (entryKey secret, Some (String c value))
             ∧ entryValue secret = String c value.
Proof.
  intros (key & c & value & Hsplit)%wellFormed_split. exists c, value.
  unfold entryKey, entryValue. by rewrite Hsplit.
Qed.

Lemma parseSecrets_wellFormed secret argvSecrets parsed :
  wellFormed secret →
  parseSecrets (secret :: argvSecrets) parsed
  = parseSecrets argvSecrets (assign (entryKey secret) (entryValue secret) parsed).
Proof.
  intros (c & value & Hsplit & Hvalue)%secret_wellFormed.
  cbn [parseSecrets]. by rewrite Hsplit, Hvalue.
Qed.

Lemma parseSecrets_malformed secret argvSecrets parsed :
  ¬ wellFormed secret →
  parseSecrets (secret :: argvSecrets) parsed = Threw (missingValue (entryKey secret)).
Proof.
  intros Hbad. cbn [parseSecrets]. unfold entryKey.
  destruct (_splitOnce secret "=") as [key [[|c value]|]] eqn:Hsplit; [done| |done].
  destruct Hbad. apply wellFormed_split. by exists key, c, value.
Qed.

Lemma parseSecrets_app good rest parsed :
  Forall wellFormed good →
  parseSecrets (good ++ rest) parsed = parseSecrets rest (stored good parsed).
Proof.
  intros Hgood. revert parsed. induction Hgood as [|secret good Hsecret _ IH]; intros parsed.
  - done.
  - rewrite <- app_comm_cons, parseSecrets_wellFormed by done. apply IH.
Qed.

Lemma parseSecrets_Returned argvSecrets parsed parsed' :
  parseSecrets argvSecrets parsed = Returned parsed' →
  Forall wellFormed argvSecrets ∧ parsed' = stored argvSecrets parsed.
Proof.
  revert parsed. induction argvSecrets as [|secret argvSecrets IH]; intros parsed Hret.
  - injection Hret as <-. by split.
  - assert (Hsecret : wellFormed secret).
    { apply wellFormed_split. cbn [parseSecrets] in Hret.
      destruct (_splitOnce secret "=") as [key [[|c value]|]]; [done| |done]. by eauto. }
    rewrite parseSecrets_wellFormed in Hret by done.
    apply IH in Hret as [Hrest ->]. split; [by constructor|done].
Qed.

Lemma elem_of_keys_stored secrets parsed k :
  k ∈ keys (stored secrets parsed)
  ↔ (∃ secret, secret ∈ secrets ∧ entryKey secret = k ∧ k ≠ "__proto__") ∨ k ∈ keys parsed.
Proof.
  unfold stored. revert parsed. induction secrets as [|secret secrets IH]; intros parsed; simpl.
  - split; [by right|]. intros [(s & Hs & _)|?]; [|done]. by apply elem_of_nil in Hs.
  - rewrite IH, elem_of_keys_assign. split.
    + intros [(s & Hs & Hk)|[[-> Hk]|Hk]].
      * left. exists s. split; [by apply elem_of_cons; right|done].
      * left. exists secret. split; [by apply elem_of_cons; left|done].
      * by right.
    + intros [(s & Hs & <- & Hk)|Hk]; [|by right; right].
      apply elem_of_cons in Hs as [->|Hs]; [by right; left|].
      left. by exists s.
Qed.

Lemma stored_values secrets parsed :
  Forall wellFormed secrets →
  (∀ k v, ownProperty parsed k = Some v → v ≠ EmptyString) →
  ∀ k v, ownProperty (stored secrets parsed) k = Some v → v ≠ EmptyString.
Proof.
  unfold stored. intros Hgood. revert parsed.
  induction Hgood as [|secret secrets Hsecret _ IH]; intros parsed Hparsed; simpl; [done|].
  apply IH. intros k v. rewrite ownProperty_assign. case_decide; [|by apply Hparsed].
  intros [= <-]. apply secret_wellFormed in Hsecret as (c & value & _ & ->). done.
Qed.

Lemma stored_proto secrets parsed :
  ownProperty (stored secrets parsed) "__proto__" = ownProperty parsed "__proto__".
Proof.
  unfold stored. revert parsed. induction secrets as [|secret secrets IH]; intros parsed; simpl.
  - done.
  - rewrite IH, ownProperty_assign. rewrite decide_False; [done|]. by intros [-> ?].
Qed.

Lemma stored_pairs (pairs : list (string * string)) parsed :
  Forall (λ p, (∀ a b, p.1 ≠ a +:+ "=" +:+ b) ∧ p.2 ≠ EmptyString) pairs →
  Forall wellFormed ((λ p, p.1 +:+ "=" +:+ p.2) <$> pairs)
  ∧ stored ((λ p, p.1 +:+ "=" +:+ p.2) <$> pairs) parsed
    = fold_left (λ parsed p, assign p.1 p.2 parsed) pairs parsed.
Proof.
  unfold stored. intros Hpairs. revert parsed.
  induction Hpairs as [|[k v] pairs [Hk Hv] _ IH]; intros parsed; simpl in *; [done|].
  assert (Hsplit : _splitOnce (k +:+ "=" +:+ v) "=" = (k, Some v)) by by apply _splitOnce_char.
  destruct (IH (assign k v parsed)) as [Hwf Hfold]. split.
  - constructor; [by exists k, v|done].
  - unfold entryKey, entryValue. rewrite Hsplit. simpl. apply Hfold.
Qed.

Lemma ownProperty_fold_assign (pairs : list (string * string)) parsed k :
  ownProperty (fold_left (λ parsed p, assign p.1 p.2 parsed) pairs parsed) k
  = if decide (k = "__proto__") then ownProperty parsed k
    else match (list_to_map (reverse pairs) : gmap string string) !! k with
         | Some v => Some v
         | None => ownProperty parsed k
         end.
Proof.
  revert parsed. induction pairs as [|[k0 v0] pairs IH]; intros parsed; simpl.
  - rewrite lookup_empty. by case_decide.
  - rewrite IH, ownProperty_assign, reverse_cons, list_to_map_app. simpl.
    destruct (decide (k = "__proto__")) as [->|Hk].
    + rewrite decide_False; [done|]. by intros [-> ?].
    + destruct (list_to_map (reverse pairs) !! k) as [v|] eqn:Hrev.
      * by erewrite lookup_union_Some_l.
      * rewrite lookup_union_r by done.
        destruct (decide (k0 = k)) as [->|Hne].
        -- rewrite lookup_insert_eq. by rewrite decide_True.
        -- rewrite lookup_insert_ne, lookup_empty by done.
           rewrite decide_False; [done|]. by intros [? _].
Qed.

End ParseProperties.

(** X4: [_parseArgvSecrets] returns an object exactly when every entry has a
    [=] followed by something. *)
Theorem _parseArgvSecrets_accepts (argvSecrets : list string) :
  (∃ parsed, _parseArgvSecrets argvSecrets = Returned parsed)
  ↔ Forall wellFormed argvSecrets.
Proof.
  unfold _parseArgvSecrets. split.
  - intros [parsed Hret]. by apply parseSecrets_Returned in Hret as [? _].
  - intros Hgood. exists (stored argvSecrets []).
    rewrite <- (app_nil_r argvSecrets) at 1. by rewrite parseSecrets_app.
Qed.

(** X5: the error of [_parseArgvSecrets] names the first entry without a
    value: the whole entry when it has no [=], and what precedes the [=]
    when nothing follows it. *)
Theorem _parseArgvSecrets_missing_value (good : list string) (bad : string)
    (rest : list string) :
  Forall wellFormed good → ¬ wellFormed bad →
  ∃ key, ((bad = key ∧ ∀ a b, bad ≠ a +:+ "=" +:+ b)
          ∨ (bad = key +:+ "=" ∧ ∀ a b, key ≠ a +:+ "=" +:+ b))
         ∧ _parseArgvSecrets (good ++ bad :: rest) = Threw (missingValue key).
Proof.
  intros Hgood Hbad. exists (entryKey bad). split.
  - unfold entryKey.
    destruct (_splitOnce bad "=") as [key [value|]] eqn:Hsplit; simpl.
    + right. destruct value as [|c value].
      * apply _splitOnce_char_inv in Hsplit as [-> Hfree]. by rewrite append_nil_r.
      * destruct Hbad. apply wellFormed_split. by eauto.
    + left. by apply _splitOnce_None in Hsplit as [-> Hfree].
  - unfold _parseArgvSecrets. rewrite parseSecrets_app by done.
    by apply parseSecrets_malformed.
Qed.

(** X6: parsing the entries [key=value] of a list of pairs, with keys free of
    [=] and values not empty, gives an object that holds for every key the
    value of its last pair, and never a property [__proto__]. *)
Theorem _parseArgvSecrets_lookup (pairs : list (string * string)) :
  Forall (λ p, (∀ a b, p.1 ≠ a +:+ "=" +:+ b) ∧ p.2 ≠ EmptyString) pairs →
  ∃ parsed,
    _parseArgvSecrets ((λ p, p.1 +:+ "=" +:+ p.2) <$> pairs) = Returned parsed
    ∧ ∀ k, ownProperty parsed k
           = if decide (k = "__proto__") then None
             else (list_to_map (reverse pairs) : gmap string string) !! k.
Proof.
  intros Hpairs. destruct (stored_pairs pairs [] Hpairs) as [Hwf Hstored].
  exists (stored ((λ p, p.1 +:+ "=" +:+ p.2) <$> pairs) []). split.
  - unfold _parseArgvSecrets.
    rewrite <- (app_nil_r (_ <$> pairs)) at 1. by rewrite parseSecrets_app.
  - intros k. rewrite Hstored, ownProperty_fold_assign. simpl.
    case_decide; [done|]. by destruct (list_to_map (reverse pairs) !! k).
Qed.

Lemma head_keys_stored secrets parsed k0 :
  head (keys parsed) = Some k0 →
  Forall (λ secret, arrayIndex (entryKey secret) = None) secrets →
  head (keys (stored secrets parsed)) = Some k0.
Proof.
  unfold stored. intros Hhead Hsecrets. revert parsed Hhead.
  induction Hsecrets as [|secret secrets Hsecret _ IH]; intros parsed Hhead; simpl; [done|].
  apply IH. by apply head_keys_assign.
Qed.

(** ** Secrets asked for *)

Section SecretsProperties.
Variable secretEnvVariableName : string → string.
Variable promptText : nat → string → option string.
Implicit Types (secretArgv : JsObject string) (values : JsObject SecretValue).
Implicit Types (trace : list Interaction) (d k : string).

Lemma prompts_Asked trace msg : prompts (trace ++ [Asked msg]) = S (prompts trace).
Proof. unfold prompts. rewrite filter_app, length_app. simpl. lia. Qed.

Lemma prompts_Logged trace msg : prompts (trace ++ [Logged msg]) = prompts trace.
Proof. unfold prompts. rewrite filter_app, length_app. simpl. lia. Qed.

Lemma missing_cons_Some secretArgv d defs v :
  argvSecret secretArgv d = Some v → missing secretArgv (d :: defs) = missing secretArgv defs.
Proof. intros Hd. unfold missing. rewrite filter_cons_False; [done|]. by rewrite Hd. Qed.

Lemma missing_cons_None secretArgv d defs :
  argvSecret secretArgv d = None →
  missing secretArgv (d :: defs) = d :: missing secretArgv defs.
Proof. intros Hd. unfold missing. by rewrite filter_cons_True. Qed.

(** What a run of the loop that returns has done. *)
Lemma promptEach_Returned secretArgv defs values trace trace' values' :
  promptEach promptText secretArgv defs values trace = (trace', Returned values') →
  trace' = trace ++ (interaction secretArgv <$> defs)
  ∧ (∀ i d, missing secretArgv defs !! i = Some d →
       ∃ c a, promptText (prompts trace + i) (enterValue d) = Some (String c a))
  ∧ (∀ k, k ∈ keys values' ↔ (k ∈ defs ∧ k ≠ "__proto__") ∨ k ∈ keys values)
  ∧ (∀ k, k ∉ defs → ownProperty values' k = ownProperty values k)
  ∧ (∀ d v, d ∈ defs → argvSecret secretArgv d = Some v → d ≠ "__proto__" →
       ownProperty values' d = Some v)
  ∧ (NoDup defs → ∀ i d, missing secretArgv defs !! i = Some d → d ≠ "__proto__" →
       ownProperty values' d = Text <$> promptText (prompts trace + i) (enterValue d))
  ∧ (NoDup (keys values) → NoDup (keys values')).
Proof.
  revert values trace. induction defs as [|d0 defs IH]; intros values trace Hrun.
  - injection Hrun as <- <-. rewrite app_nil_r. split_and!; try done.
    + intros k. split; [by right|].
      intros [[Hk _]|Hk]; [by apply elem_of_nil in Hk|done].
    + intros d v Hd. by apply elem_of_nil in Hd.
  - cbn [promptEach] in Hrun.
    destruct (argvSecret secretArgv d0) as [v0|] eqn:Hd0.
    + apply IH in Hrun as (-> & Hans & Hkeys & Hframe & Hargv & Hasked & Hnd).
      rewrite (missing_cons_Some _ _ _ _ Hd0).
      rewrite prompts_Logged in Hans, Hasked. split_and!.
      * rewrite fmap_cons, <- app_assoc. unfold interaction at 2. by rewrite Hd0.
      * done.
      * intros k. rewrite Hkeys, elem_of_keys_assign, elem_of_cons. split.
        -- intros [[Hk ?]|[[-> ?]|?]]; eauto.
        -- intros [[[->|Hk] ?]|?]; eauto.
      * intros k Hk. apply not_elem_of_cons in Hk as [Hne Hk].
        rewrite Hframe, ownProperty_assign by done.
        rewrite decide_False; [done|]. by intros [-> _].
      * intros d v Hd Hv Hproto. destruct (decide (d ∈ defs)) as [Hin|Hout].
        -- by apply Hargv.
        -- apply elem_of_cons in Hd as [->|?]; [|done].
           rewrite Hframe, ownProperty_assign by done.
           rewrite decide_True by done. congruence.
      * intros [_ Hdefs]%NoDup_cons. by apply Hasked.
      * intros Hvalues. by apply Hnd, NoDup_keys_assign.
    + destruct (promptText (prompts trace) (enterValue d0)) as [[|c a]|] eqn:Hanswer;
        [done| |done].
      apply IH in Hrun as (-> & Hans & Hkeys & Hframe & Hargv & Hasked & Hnd).
      rewrite (missing_cons_None _ _ _ Hd0).
      rewrite prompts_Asked in Hans, Hasked. split_and!.
      * rewrite fmap_cons, <- app_assoc. unfold interaction at 2. by rewrite Hd0.
      * intros [|i] d Hd; simpl in Hd.
        -- injection Hd as <-. rewrite Nat.add_0_r. by eauto.
        -- replace (prompts trace + S i) with (S (prompts trace) + i) by lia. by apply Hans.
      * intros k. rewrite Hkeys, elem_of_keys_assign, elem_of_cons. split.
        -- intros [[Hk ?]|[[-> ?]|?]]; eauto.
        -- intros [[[->|Hk] ?]|?]; eauto.
      * intros k Hk. apply not_elem_of_cons in Hk as [Hne Hk].
        rewrite Hframe, ownProperty_assign by done.
        rewrite decide_False; [done|]. by intros [-> _].
      * intros d v Hd Hv Hproto. destruct (decide (d ∈ defs)) as [Hin|Hout].
        -- by apply Hargv.
        -- apply elem_of_cons in Hd as [->|?]; [|done]. congruence.
      * intros [Hd0' Hdefs]%NoDup_cons [|i] d Hd Hproto; simpl in Hd.
        -- injection Hd as <-. rewrite Nat.add_0_r, Hanswer. simpl.
           rewrite Hframe, ownProperty_assign by done. by rewrite decide_True.
        -- replace (prompts trace + S i) with (S (prompts trace) + i) by lia.
           by apply Hasked.
      * intros Hvalues. by apply Hnd, NoDup_keys_assign.
Qed.

Lemma promptEach_Threw secretArgv defs values trace trace' e :
  promptEach promptText secretArgv defs values trace = (trace', Threw e) →
  e = secretRequired.
Proof.
  revert values trace. induction defs as [|d0 defs IH]; intros values trace Hrun; [done|].
  cbn [promptEach] in Hrun. destruct (argvSecret secretArgv d0); [by eapply IH|].
  destruct (promptText (prompts trace) (enterValue d0)) as [[|c a]|];
    [congruence|by eapply IH|congruence].
Qed.

Lemma promptEach_answered secretArgv defs values trace :
  (∀ i d, missing secretArgv defs !! i = Some d →
     ∃ c a, promptText (prompts trace + i) (enterValue d) = Some (String c a)) →
  ∃ trace' values',
    promptEach promptText secretArgv defs values trace = (trace', Returned values').
Proof.
  revert values trace. induction defs as [|d0 defs IH]; intros values trace Hans.
  - by eexists _, _.
  - cbn [promptEach]. destruct (argvSecret secretArgv d0) as [v0|] eqn:Hd0.
    + apply IH. intros i d Hd. rewrite prompts_Logged. apply Hans.
      by rewrite (missing_cons_Some _ _ _ _ Hd0).
    + rewrite (missing_cons_None _ _ _ Hd0) in Hans.
      destruct (Hans 0 d0 eq_refl) as (c & a & Hanswer).
      rewrite Nat.add_0_r in Hanswer. rewrite Hanswer.
      apply IH. intros i d Hd. rewrite prompts_Asked.
      replace (S (prompts trace) + i) with (prompts trace + S i) by lia. by apply Hans.
Qed.

(** The secrets given in [argv.secrets], once parsed. *)
Lemma parsed_keys argvSecrets parsed k :
  _parseArgvSecrets argvSecrets = Returned parsed →
  (k ∈ keys parsed
   ↔ ∃ secret, secret ∈ argvSecrets ∧ entryKey secret = k ∧ k ≠ "__proto__").
Proof.
  intros [_ ->]%parseSecrets_Returned. rewrite elem_of_keys_stored.
  split; [|by left]. intros [?|Hk]; [done|]. by apply elem_of_nil in Hk.
Qed.

Lemma parsed_argvSecret argvSecrets parsed d :
  _parseArgvSecrets argvSecrets = Returned parsed →
  argvSecret parsed d
  = match ownProperty parsed d with
    | Some v => Some (Text v)
    | None => if decide (d ∈ objectPrototype) then Some Builtin else None
    end.
Proof.
  intros [Hwf ->]%parseSecrets_Returned. unfold argvSecret, read.
  destruct (ownProperty (stored argvSecrets []) d) as [v|] eqn:Hd; [|by case_decide].
  apply stored_values in Hd; [|done..]. by destruct v.
Qed.

Lemma parsed_interaction argvSecrets parsed d :
  _parseArgvSecrets argvSecrets = Returned parsed →
  interaction parsed d
  = if decide (d ∈ keys parsed ∨ d ∈ objectPrototype)
    then Logged (usingSecret d) else Asked (enterValue d).
Proof.
  intros Hparsed. unfold interaction. rewrite (parsed_argvSecret _ _ _ Hparsed).
  destruct (ownProperty parsed d) as [v|] eqn:Hd.
  - rewrite decide_True; [done|]. left. apply ownProperty_is_Some. by eauto.
  - apply ownProperty_None in Hd. destruct (decide (d ∈ objectPrototype)).
    + rewrite decide_True; [done|]. by right.
    + rewrite decide_False; [done|]. by intros [?|?].
Qed.

Lemma parsed_missing argvSecrets parsed defs :
  _parseArgvSecrets argvSecrets = Returned parsed →
  missing parsed defs = filter (λ d, (d ∉ keys parsed) ∧ (d ∉ objectPrototype)) defs.
Proof.
  intros Hparsed. unfold missing. apply list_filter_iff. intros d.
  rewrite (parsed_argvSecret _ _ _ Hparsed).
  destruct (ownProperty parsed d) as [v|] eqn:Hd.
  - split; [done|]. intros [Hk _]. destruct Hk. apply ownProperty_is_Some. by eauto.
  - apply ownProperty_None in Hd. destruct (decide (d ∈ objectPrototype)).
    + split; [done|]. by intros [_ ?].
    + by split.
Qed.

(** [promptSecrets] once the secrets of [argv] are parsed and checked. *)
Lemma promptSecrets_checked defs argvSecrets parsed :
  _parseArgvSecrets argvSecrets = Returned parsed →
  (∀ c k, find (λ s, negb (includes s defs)) (keys parsed) ≠ Some (String c k)) →
  promptSecrets secretEnvVariableName promptText (Some defs) argvSecrets
  = match promptEach promptText parsed defs [] [] with
    | (trace, Returned values) => (trace, Returned (mapKeys secretEnvVariableName values))
    | (trace, Threw e) => (trace, Threw e)
    end.
Proof.
  intros Hparsed Hfind. unfold promptSecrets. rewrite Hparsed.
  destruct (find _ (keys parsed)) as [[|c k]|]; [done| |done]. by destruct (Hfind c k).
Qed.

Lemma find_unknown defs (l : list string) k :
  find (λ s, negb (includes s defs)) l = Some k → k ∈ l ∧ k ∉ defs.
Proof.
  intros [Hin Hnot]%find_some. apply list_elem_of_In in Hin.
  unfold includes in Hnot. by apply negb_true_iff, bool_decide_eq_false in Hnot.
Qed.

Lemma find_known defs (l : list string) :
  (∀ k, k ∈ l → k ∈ defs) → find (λ s, negb (includes s defs)) l = None.
Proof.
  intros Hknown. destruct (find _ l) as [k|] eqn:Hfind; [|done].
  apply find_unknown in Hfind as [Hin Hnot]. by apply Hknown in Hin.
Qed.

(** A run of [promptSecrets] that returns, seen from the loop. *)
Lemma promptSecrets_Returned defs argvSecrets trace env :
  promptSecrets secretEnvVariableName promptText (Some defs) argvSecrets
  = (trace, Returned env) →
  ∃ parsed values,
    _parseArgvSecrets argvSecrets = Returned parsed
    ∧ promptEach promptText parsed defs [] [] = (trace, Returned values)
    ∧ env = mapKeys secretEnvVariableName values.
Proof.
  unfold promptSecrets. destruct (_parseArgvSecrets argvSecrets) as [parsed|]; [|done].
  destruct (find _ (keys parsed)) as [[|c k]|]; [|done|];
    destruct (promptEach promptText parsed defs [] []) as [trace' [values|e]] eqn:Hrun;
    intros [= <- <-]; by exists parsed, values.
Qed.

End SecretsProperties.

Section PromptSecrets.
Variable secretEnvVariableName : string → string.
Variable promptText : nat → string → option string.

(** X7: a secret of [argv] that the integration does not define is refused
    before anything is shown or asked, provided the empty name is not one of
    the undefined ones. *)
Theorem promptSecrets_unknown_secret (secretDefinitions argvSecrets : list string)
    (parsed : JsObject string) :
  _parseArgvSecrets argvSecrets = Returned parsed →
  (∃ k, k ∈ keys parsed ∧ k ∉ secretDefinitions) →
  (EmptyString ∈ keys parsed → EmptyString ∈ secretDefinitions) →
  ∃ k, k ∈ keys parsed ∧ (k ∉ secretDefinitions)
       ∧ promptSecrets secretEnvVariableName promptText (Some secretDefinitions) argvSecrets
         = ([], Threw (notDefined k)).
Proof.
  intros Hparsed (k & Hk & Hnot) Hempty. unfold promptSecrets. rewrite Hparsed.
  destruct (find _ (keys parsed)) as [k0|] eqn:Hfind.
  - apply find_unknown in Hfind as [Hin Hout]. exists k0.
    destruct k0 as [|c k0]; [by destruct Hout; apply Hempty|done].
  - apply find_none with (x := k) in Hfind; [|by apply list_elem_of_In].
    unfold includes in Hfind. by apply negb_false_iff, bool_decide_eq_true in Hfind.
Qed.

(** X8: a run of [promptSecrets] that returns has shown one thing for each
    secret definition, in their order: a debug line when [argv] gives the
    secret or [Object.prototype] has a property of its name, and a question
    otherwise. *)
Theorem promptSecrets_trace (secretDefinitions argvSecrets : list string)
    (parsed : JsObject string) (trace : list Interaction) (env : JsObject SecretValue) :
  _parseArgvSecrets argvSecrets = Returned parsed →
  promptSecrets secretEnvVariableName promptText (Some secretDefinitions) argvSecrets
  = (trace, Returned env) →
  trace = (λ d, if decide (d ∈ keys parsed ∨ d ∈ objectPrototype)
                then Logged (usingSecret d) else Asked (enterValue d))
          <$> secretDefinitions.
Proof.
  intros Hparsed (parsed' & values & Hparsed' & Hrun & _)%promptSecrets_Returned.
  assert (parsed' = parsed) as -> by congruence.
  apply promptEach_Returned in Hrun as (-> & _). simpl.
  apply list_fmap_ext. intros _ d _. by apply (parsed_interaction argvSecrets).
Qed.

(** X9: when [argv] names defined secrets only, [promptSecrets] returns
    exactly when every question, one for each definition that [argv] does not
    give, in their order, is answered with a text that is not empty; the
    only error it throws otherwise is that a secret is required. *)
Theorem promptSecrets_required (secretDefinitions argvSecrets : list string)
    (parsed : JsObject string) :
  _parseArgvSecrets argvSecrets = Returned parsed →
  (∀ k, k ∈ keys parsed → k ∈ secretDefinitions) →
  ((∃ trace env,
      promptSecrets secretEnvVariableName promptText (Some secretDefinitions) argvSecrets
      = (trace, Returned env))
   ↔ (∀ i d,
        filter (λ d, (d ∉ keys parsed) ∧ (d ∉ objectPrototype)) secretDefinitions !! i = Some d →
        ∃ c a, promptText i (enterValue d) = Some (String c a)))
  ∧ (∀ trace e,
       promptSecrets secretEnvVariableName promptText (Some secretDefinitions) argvSecrets
       = (trace, Threw e) →
       e = secretRequired).
Proof.
  intros Hparsed Hknown.
  rewrite (promptSecrets_checked _ _ _ _ parsed Hparsed)
    by (by rewrite find_known).
  rewrite <- (parsed_missing argvSecrets) by done.
  destruct (promptEach promptText parsed secretDefinitions [] []) as [trace [values|e]] eqn:Hrun.
  - split; [|done]. split; [|by eauto].
    intros _. by apply promptEach_Returned in Hrun as (_ & Hans & _).
  - split.
    + split; [by intros (? & ? & ?)|].
      intros Hans. apply (promptEach_answered promptText parsed _ [] []) in Hans
        as (trace' & values' & Hrun'). congruence.
    + intros trace' e' [= <- <-]. by eapply promptEach_Threw.
Qed.

(** X10: the object [promptSecrets] returns has one key for each secret
    definition other than [__proto__], its environment variable name, and no
    other key. *)
Theorem promptSecrets_env_keys (secretDefinitions argvSecrets : list string)
    (trace : list Interaction) (env : JsObject SecretValue) (k : string) :
  promptSecrets secretEnvVariableName promptText (Some secretDefinitions) argvSecrets
  = (trace, Returned env) →
  k ∈ keys env
  ↔ (∃ d, d ∈ secretDefinitions ∧ d ≠ "__proto__" ∧ k = secretEnvVariableName d).
Proof.
  intros (parsed & values & _ & Hrun & ->)%promptSecrets_Returned.
  apply promptEach_Returned in Hrun as (_ & _ & Hkeys & _).
  unfold mapKeys. rewrite mapKeys_fold_keys. split.
  - intros [(d & Hd & ->)|Hk]; [|by apply elem_of_nil in Hk].
    apply Hkeys in Hd as [[Hd Hproto]|Hd]; [by exists d|by apply elem_of_nil in Hd].
  - intros (d & Hd & Hproto & ->). left. exists d. split; [|done].
    apply Hkeys. by left.
Qed.

(** X11: with environment variable names that tell the secrets apart, a secret
    given in [argv] reaches the returned object under its variable name, with
    the value of [argv]. *)
Theorem promptSecrets_argv_value (secretDefinitions argvSecrets : list string)
    (parsed : JsObject string) (trace : list Interaction) (env : JsObject SecretValue)
    (d v : string) :
  (∀ d1 d2, secretEnvVariableName d1 = secretEnvVariableName d2 → d1 = d2) →
  _parseArgvSecrets argvSecrets = Returned parsed →
  promptSecrets secretEnvVariableName promptText (Some secretDefinitions) argvSecrets
  = (trace, Returned env) →
  d ∈ secretDefinitions → ownProperty parsed d = Some v →
  ownProperty env (secretEnvVariableName d) = Some (Text v).
Proof.
  intros Hinj Hparsed (parsed' & values & Hparsed' & Hrun & ->)%promptSecrets_Returned Hd Hv.
  assert (parsed' = parsed) as -> by congruence.
  apply promptEach_Returned in Hrun as (_ & _ & _ & _ & Hargv & _ & Hnd).
  apply mapKeys_fold_lookup; [by intros ? ? _ _; apply Hinj|by apply Hnd, NoDup_nil|].
  apply Hargv; [done| |].
  - by rewrite (parsed_argvSecret argvSecrets), Hv.
  - intros ->. apply parseSecrets_Returned in Hparsed as [_ ->].
    rewrite stored_proto in Hv. done.
Qed.

(** X12: with environment variable names that tell the secrets apart and no
    secret defined twice, the answer to a question reaches the returned
    object under the variable name of the secret it was asked for. *)
Theorem promptSecrets_prompted_value (secretDefinitions argvSecrets : list string)
    (parsed : JsObject string) (trace : list Interaction) (env : JsObject SecretValue)
    (i : nat) (d : string) :
  (∀ d1 d2, secretEnvVariableName d1 = secretEnvVariableName d2 → d1 = d2) →
  NoDup secretDefinitions →
  _parseArgvSecrets argvSecrets = Returned parsed →
  promptSecrets secretEnvVariableName promptText (Some secretDefinitions) argvSecrets
  = (trace, Returned env) →
  filter (λ d, (d ∉ keys parsed) ∧ (d ∉ objectPrototype)) secretDefinitions !! i = Some d →
  ∃ answer, promptText i (enterValue d) = Some answer
            ∧ ownProperty env (secretEnvVariableName d) = Some (Text answer).
Proof.
  intros Hinj Hdefs Hparsed (parsed' & values & Hparsed' & Hrun & ->)%promptSecrets_Returned Hd.
  assert (parsed' = parsed) as -> by congruence.
  assert (Hproto : d ≠ "__proto__").
  { apply list_elem_of_lookup_2, list_elem_of_filter in Hd as [[_ Hd] _].
    intros ->. apply Hd. unfold objectPrototype. set_solver. }
  rewrite <- (parsed_missing argvSecrets) in Hd by done.
  apply promptEach_Returned in Hrun as (_ & Hans & _ & _ & _ & Hasked & Hnd).
  destruct (Hans i d Hd) as (c & a & Hanswer). simpl in Hanswer.
  exists (String c a). split; [done|].
  apply mapKeys_fold_lookup; [by intros ? ? _ _; apply Hinj|by apply Hnd, NoDup_nil|].
  rewrite (Hasked Hdefs i d Hd Hproto). simpl. by rewrite Hanswer.
Qed.

(** X13: an entry of [argv] with an empty name, put first, switches the check
    of the names off: whatever the further entries name, as long as no name
    is an array index, the only error left is that a secret is required. *)
Theorem promptSecrets_empty_name (secretDefinitions : list string) (value : string)
    (argvSecrets : list string) (trace : list Interaction) (e : Thrown) :
  value ≠ EmptyString → EmptyString ∉ secretDefinitions →
  Forall wellFormed argvSecrets →
  Forall (λ secret, arrayIndex (entryKey secret) = None) argvSecrets →
  promptSecrets secretEnvVariableName promptText (Some secretDefinitions)
                (("=" +:+ value) :: argvSecrets)
  = (trace, Threw e) →
  e = secretRequired.
Proof.
  intros Hvalue Hempty Hwf Hindex.
  assert (Hfirst : wellFormed ("=" +:+ value)) by by exists EmptyString, value.
  assert (Hsplit : _splitOnce ("=" +:+ value) "=" = (EmptyString, Some value)).
  { apply (_splitOnce_char EmptyString). by intros [|??] ?. }
  assert (Hparsed : _parseArgvSecrets (("=" +:+ value) :: argvSecrets)
                    = Returned (stored argvSecrets [(EmptyString, value)])).
  { unfold _parseArgvSecrets. rewrite parseSecrets_wellFormed by done.
    unfold entryKey, entryValue. rewrite Hsplit. simpl.
    rewrite <- (app_nil_r argvSecrets) at 1. by rewrite parseSecrets_app. }
  rewrite (promptSecrets_checked _ _ _ _ _ Hparsed).
  - destruct (promptEach _ _ _ _ _) as [trace' [values|e']] eqn:Hrun; [done|].
    intros [= <- <-]. by eapply promptEach_Threw.
  - intros c k Hfind.
    assert (Hhead : head (keys (stored argvSecrets [(EmptyString, value)])) = Some EmptyString)
      by by apply head_keys_stored.
    destruct (keys _) as [|k0 ks]; [done|]. injection Hhead as ->.
    simpl in Hfind. unfold includes in Hfind at 1.
    rewrite bool_decide_eq_false_2 in Hfind by done. done.
Qed.

End PromptSecrets.

(** ** Runs of the emitter *)

Section EmitterRuns.
Variable absoluteFrom : list string → list string → list string.
Implicit Types (fs : FileSystem) (p q : list string) (file : File) (files : list File).

Lemma writeFile_inv p data fs fs' :
  writeFile p data fs = Ok fs' →
  p ≠ [] ∧ isDirectory fs (dirname p) = true ∧ fs !! p ≠ Some Directory
  ∧ fs' = <[p := Regular data]> fs.
Proof.
  unfold writeFile. destruct p as [|s p]; [done|].
  destruct (isDirectory fs (dirname (s :: p)));
    [|by destruct (fs !! dirname (s :: p)) as [[|?]|]].
  destruct (fs !! (s :: p)) as [[|?]|]; [done|by intros [= <-]..].
Qed.

Lemma writeGeneratedFile_inv outDir file fs fs' :
  writeGeneratedFile absoluteFrom outDir file fs = Ok fs' →
  ∃ fs1, mkdir_recursive (dirname (absoluteFrom outDir (file_path file))) fs = Ok fs1
         ∧ writeFile (absoluteFrom outDir (file_path file)) (file_content file) fs1 = Ok fs'.
Proof.
  unfold writeGeneratedFile.
  destruct (mkdir_recursive _ fs) as [fs1|e]; [|done]. by exists fs1.
Qed.

(** One turn of the loop keeps what it does not write, keeps every
    directory, and leaves the file where it wrote it. *)
Lemma writeGeneratedFile_keeps outDir file fs fs' q e :
  writeGeneratedFile absoluteFrom outDir file fs = Ok fs' →
  fs !! q = Some e → absoluteFrom outDir (file_path file) ≠ q → fs' !! q = Some e.
Proof.
  intros (fs1 & Hm & Hw)%writeGeneratedFile_inv He Hq.
  apply writeFile_inv in Hw as (_ & _ & _ & ->). rewrite lookup_insert_ne by done.
  by apply (mkdirBelow_Ok _ _ _ _ Hm).
Qed.

Lemma writeGeneratedFile_directories outDir file fs fs' q :
  writeGeneratedFile absoluteFrom outDir file fs = Ok fs' →
  fs !! q = Some Directory → fs' !! q = Some Directory.
Proof.
  intros Hrun Hq. apply (writeGeneratedFile_keeps outDir file fs fs' q Directory Hrun Hq).
  intros <-. apply writeGeneratedFile_inv in Hrun as (fs1 & Hm & Hw).
  apply writeFile_inv in Hw as (_ & _ & Hnot & _). apply Hnot.
  destruct (mkdirBelow_Ok _ _ _ _ Hm) as [Hkeep _]. by apply Hkeep.
Qed.

Lemma writeGeneratedFile_written outDir file fs fs' :
  writeGeneratedFile absoluteFrom outDir file fs = Ok fs' →
  fs' !! absoluteFrom outDir (file_path file) = Some (Regular (file_content file)).
Proof.
  intros (fs1 & Hm & Hw)%writeGeneratedFile_inv.
  apply writeFile_inv in Hw as (_ & _ & _ & ->). by rewrite lookup_insert_eq.
Qed.

Lemma writeGeneratedFile_regular outDir file fs fs' q data :
  writeGeneratedFile absoluteFrom outDir file fs = Ok fs' →
  fs !! q = Some (Regular data) → ∃ data', fs' !! q = Some (Regular data').
Proof.
  intros Hrun Hq. destruct (decide (absoluteFrom outDir (file_path file) = q)) as [<-|Hne].
  - eexists. by eapply writeGeneratedFile_written.
  - exists data. by eapply writeGeneratedFile_keeps.
Qed.

Lemma writeGeneratedFile_directoryPath outDir file fs fs' :
  writeGeneratedFile absoluteFrom outDir file fs = Ok fs' →
  absoluteFrom outDir (file_path file) ≠ []
  ∧ directoryPath fs' (dirname (absoluteFrom outDir (file_path file))).
Proof.
  intros (fs1 & Hm & Hw)%writeGeneratedFile_inv. split.
  - by apply writeFile_inv in Hw as (? & _).
  - eapply writeFile_Ok; [done|]. by eapply mkdir_recursive_Ok.
Qed.

Lemma writeGeneratedFilesToOutFolder_cons_inv outDir file files fs fs' :
  writeGeneratedFilesToOutFolder absoluteFrom outDir (file :: files) fs = Ok fs' →
  ∃ fs1, writeGeneratedFile absoluteFrom outDir file fs = Ok fs1
         ∧ writeGeneratedFilesToOutFolder absoluteFrom outDir files fs1 = Ok fs'.
Proof.
  simpl. destruct (writeGeneratedFile absoluteFrom outDir file fs) as [fs1|e]; [|done].
  by exists fs1.
Qed.

Lemma writeGeneratedFilesToOutFolder_app_inv outDir pre post fs fs' :
  writeGeneratedFilesToOutFolder absoluteFrom outDir (pre ++ post) fs = Ok fs' →
  ∃ fs1, writeGeneratedFilesToOutFolder absoluteFrom outDir pre fs = Ok fs1
         ∧ writeGeneratedFilesToOutFolder absoluteFrom outDir post fs1 = Ok fs'.
Proof.
  rewrite writeGeneratedFilesToOutFolder_app.
  destruct (writeGeneratedFilesToOutFolder absoluteFrom outDir pre fs) as [fs1|e]; [|done].
  by exists fs1.
Qed.

Lemma writeGeneratedFilesToOutFolder_directories outDir files fs fs' q :
  writeGeneratedFilesToOutFolder absoluteFrom outDir files fs = Ok fs' →
  fs !! q = Some Directory → fs' !! q = Some Directory.
Proof.
  revert fs. induction files as [|file files IH]; intros fs Hrun Hq.
  - by injection Hrun as <-.
  - apply writeGeneratedFilesToOutFolder_cons_inv in Hrun as (fs1 & Hstep & Hrun).
    eapply IH; [done|]. by eapply writeGeneratedFile_directories.
Qed.

Lemma writeGeneratedFilesToOutFolder_regular outDir files fs fs' q data :
  writeGeneratedFilesToOutFolder absoluteFrom outDir files fs = Ok fs' →
  fs !! q = Some (Regular data) → ∃ data', fs' !! q = Some (Regular data').
Proof.
  revert fs data. induction files as [|file files IH]; intros fs data Hrun Hq.
  - injection Hrun as <-. by eauto.
  - apply writeGeneratedFilesToOutFolder_cons_inv in Hrun as (fs1 & Hstep & Hrun).
    destruct (writeGeneratedFile_regular _ _ _ _ _ _ Hstep Hq) as [data' Hq'].
    by eapply IH.
Qed.

Lemma writeGeneratedFilesToOutFolder_directoryPath outDir files fs fs' q p :
  writeGeneratedFilesToOutFolder absoluteFrom outDir files fs = Ok fs' →
  directoryPath fs p → directoryPath fs' p.
Proof.
  intros Hrun Hdir q' Hq'. apply isDirectory_true.
  destruct (proj1 (isDirectory_true fs q') (Hdir q' Hq')) as [->|Hd]; [by left|right].
  by eapply writeGeneratedFilesToOutFolder_directories.
Qed.

(** What a successful run leaves for each of its files. *)
Lemma writeGeneratedFilesToOutFolder_ready outDir files fs fs' file :
  writeGeneratedFilesToOutFolder absoluteFrom outDir files fs = Ok fs' →
  file ∈ files →
  absoluteFrom outDir (file_path file) ≠ []
  ∧ directoryPath fs' (dirname (absoluteFrom outDir (file_path file)))
  ∧ ∃ data, fs' !! absoluteFrom outDir (file_path file) = Some (Regular data).
Proof.
  revert fs. induction files as [|file0 files IH]; intros fs Hrun Hin.
  - by apply elem_of_nil in Hin.
  - apply writeGeneratedFilesToOutFolder_cons_inv in Hrun as (fs1 & Hstep & Hrun).
    apply elem_of_cons in Hin as [->|Hin]; [|by eapply IH].
    destruct (writeGeneratedFile_directoryPath _ _ _ _ Hstep) as [Hne Hdir].
    split_and!; [done| |].
    + by eapply (writeGeneratedFilesToOutFolder_directoryPath _ _ _ _ []).
    + eapply writeGeneratedFilesToOutFolder_regular; [done|].
      by eapply writeGeneratedFile_written.
Qed.

Lemma overwritten_lookup_ne outDir files fs q :
  (∀ file, file ∈ files → absoluteFrom outDir (file_path file) ≠ q) →
  overwritten absoluteFrom outDir files fs !! q = fs !! q.
Proof.
  unfold overwritten. revert fs. induction files as [|file files IH]; intros fs Hq; [done|].
  simpl. rewrite IH.
  - apply lookup_insert_ne, Hq. by apply elem_of_cons; left.
  - intros g Hg. apply Hq. by apply elem_of_cons; right.
Qed.

Lemma overwritten_lookup_last outDir pre file post fs :
  (∀ g, g ∈ post → absoluteFrom outDir (file_path g) ≠ absoluteFrom outDir (file_path file)) →
  overwritten absoluteFrom outDir (pre ++ file :: post) fs
    !! absoluteFrom outDir (file_path file)
  = Some (Regular (file_content file)).
Proof.
  intros Hpost. unfold overwritten. rewrite fold_left_app. simpl.
  fold (overwritten absoluteFrom outDir pre fs).
  fold (overwritten absoluteFrom outDir post
          (<[absoluteFrom outDir (file_path file) := Regular (file_content file)]>
             (overwritten absoluteFrom outDir pre fs))).
  rewrite overwritten_lookup_ne by done. by rewrite lookup_insert_eq.
Qed.

Lemma last_write outDir files q :
  q ∈ (λ g, absoluteFrom outDir (file_path g)) <$> files →
  ∃ pre file post,
    files = pre ++ file :: post
    ∧ absoluteFrom outDir (file_path file) = q
    ∧ ∀ g, g ∈ post → absoluteFrom outDir (file_path g) ≠ q.
Proof.
  induction files as [|file1 files IH]; intros Hin; [by apply elem_of_nil in Hin|].
  destruct (decide (q ∈ (λ g, absoluteFrom outDir (file_path g)) <$> files)) as [Hlater|Hnot].
  - destruct (IH Hlater) as (pre & file & post & -> & Hfile & Hpost).
    by exists (file1 :: pre), file, post.
  - rewrite fmap_cons in Hin. apply elem_of_cons in Hin as [->|Hin]; [|done].
    exists [], file1, files. split_and!; [done..|].
    intros g Hg Heq. apply Hnot, list_elem_of_fmap. by exists g.
Qed.

(** A run keeps what stands at a path it does not write. *)
Lemma writeGeneratedFilesToOutFolder_unwritten outDir files fs fs' q e :
  writeGeneratedFilesToOutFolder absoluteFrom outDir files fs = Ok fs' →
  fs !! q = Some e →
  (∀ file, file ∈ files → absoluteFrom outDir (file_path file) ≠ q) →
  fs' !! q = Some e.
Proof.
  revert fs. induction files as [|file files IH]; intros fs Hrun He Hq.
  - by injection Hrun as <-.
  - apply writeGeneratedFilesToOutFolder_cons_inv in Hrun as (fs1 & Hstep & Hrun).
    eapply IH; [done| |].
    + eapply writeGeneratedFile_keeps; [done..|]. apply Hq. by apply elem_of_cons; left.
    + intros g Hg. apply Hq. by apply elem_of_cons; right.
Qed.

(** A file that no later file replaces is there when the run is over. *)
Lemma writeGeneratedFilesToOutFolder_written outDir file post fs fs' :
  writeGeneratedFilesToOutFolder absoluteFrom outDir (file :: post) fs = Ok fs' →
  (∀ g, g ∈ post → absoluteFrom outDir (file_path g) ≠ absoluteFrom outDir (file_path file)) →
  fs' !! absoluteFrom outDir (file_path file) = Some (Regular (file_content file)).
Proof.
  intros (fs1 & Hstep & Hrun)%writeGeneratedFilesToOutFolder_cons_inv Hpost.
  eapply writeGeneratedFilesToOutFolder_unwritten; [done| |done].
  by eapply writeGeneratedFile_written.
Qed.

(** X14: a successful run removes nothing: where a directory was there is a
    directory, where a regular file was there is a regular file, and what
    stands at a path that the run does not write is left as it was. *)
Theorem writeGeneratedFilesToOutFolder_keeps outDir files fs fs' q e :
  writeGeneratedFilesToOutFolder absoluteFrom outDir files fs = Ok fs' →
  fs !! q = Some e →
  match e with
  | Directory => fs' !! q = Some Directory
  | Regular _ => ∃ data, fs' !! q = Some (Regular data)
  end
  ∧ ((∀ file, file ∈ files → absoluteFrom outDir (file_path file) ≠ q) →
     fs' !! q = Some e).
Proof.
  intros Hrun He. split.
  - destruct e as [|data].
    + by eapply writeGeneratedFilesToOutFolder_directories.
    + by eapply writeGeneratedFilesToOutFolder_regular.
  - by apply (writeGeneratedFilesToOutFolder_unwritten outDir files fs).
Qed.

(** X15: after a successful run a file holds the content of the last of the
    files written to its path. *)
Theorem writeGeneratedFilesToOutFolder_last_write outDir pre file post fs fs' :
  writeGeneratedFilesToOutFolder absoluteFrom outDir (pre ++ file :: post) fs = Ok fs' →
  (∀ g, g ∈ post → absoluteFrom outDir (file_path g) ≠ absoluteFrom outDir (file_path file)) →
  fs' !! absoluteFrom outDir (file_path file) = Some (Regular (file_content file)).
Proof.
  intros (fs1 & _ & Hrun)%writeGeneratedFilesToOutFolder_app_inv Hpost.
  by apply (writeGeneratedFilesToOutFolder_written outDir file post fs1).
Qed.

(** Where every file has its directory and no directory in its place, the
    run only overwrites. *)
Lemma writeGeneratedFilesToOutFolder_overwrites outDir files fs :
  (∀ file, file ∈ files →
     absoluteFrom outDir (file_path file) ≠ []
     ∧ directoryPath fs (dirname (absoluteFrom outDir (file_path file)))
     ∧ ∃ data, fs !! absoluteFrom outDir (file_path file) = Some (Regular data)) →
  writeGeneratedFilesToOutFolder absoluteFrom outDir files fs
  = Ok (overwritten absoluteFrom outDir files fs).
Proof.
  revert fs. induction files as [|file files IH]; intros fs Hready; [done|].
  destruct (Hready file) as (Hne & Hdir & data & Hfile); [by apply elem_of_cons; left|].
  assert (Hstep : writeGeneratedFile absoluteFrom outDir file fs
                  = Ok (<[absoluteFrom outDir (file_path file) := Regular (file_content file)]> fs)).
  { unfold writeGeneratedFile. rewrite mkdir_recursive_existing by done. simpl.
    unfold writeFile. destruct (absoluteFrom outDir (file_path file)) as [|s p] eqn:Hp; [done|].
    rewrite (Hdir (dirname (s :: p))) by done. by rewrite Hfile. }
  cbn [writeGeneratedFilesToOutFolder]. rewrite Hstep. simpl. apply IH.
  intros g Hg. destruct (Hready g) as (Hgne & Hgdir & datag & Hgfile); [by apply elem_of_cons; right|].
  split_and!; [done| |].
  - eapply (writeGeneratedFilesToOutFolder_directoryPath outDir [file] fs _ []);
      [|done]. cbn [writeGeneratedFilesToOutFolder]. by rewrite Hstep.
  - eapply (writeGeneratedFilesToOutFolder_regular outDir [file] fs); [|done].
    cbn [writeGeneratedFilesToOutFolder]. by rewrite Hstep.
Qed.

(** X16: running the emitter again on what a successful run left succeeds and
    changes nothing. *)
Theorem writeGeneratedFilesToOutFolder_again outDir files fs fs' :
  writeGeneratedFilesToOutFolder absoluteFrom outDir files fs = Ok fs' →
  writeGeneratedFilesToOutFolder absoluteFrom outDir files fs' = Ok fs'.
Proof.
  intros Hrun. rewrite writeGeneratedFilesToOutFolder_overwrites
    by (intros file Hfile; by eapply writeGeneratedFilesToOutFolder_ready).
  f_equal. apply map_eq. intros q.
  destruct (decide (q ∈ (λ g, absoluteFrom outDir (file_path g)) <$> files)) as [Hq|Hq].
  - apply last_write in Hq as (pre & file & post & -> & <- & Hpost).
    rewrite overwritten_lookup_last by done.
    symmetry.
    apply writeGeneratedFilesToOutFolder_app_inv in Hrun as (fs1 & _ & Hrun).
    by apply (writeGeneratedFilesToOutFolder_written outDir file post fs1).
  - apply overwritten_lookup_ne. intros g Hg Heq. apply Hq, list_elem_of_fmap. by exists g.
Qed.

End EmitterRuns.

(** ** What the loader returns *)

Section LoaderSuccess.
Context `{Utils}.

(** X18: the loader returns a definition exactly when the definition file
    exists, the bundler gives at least one output file, and the evaluation
    of the first of them returns a module with a default export, which is
    the definition returned; no other output file is evaluated. *)
Theorem readIntegrationDefinitionFromFS_definition (w : World) (paths : ProjectPaths)
    (trace : list Event) (d : IntegrationDefinition) :
  readIntegrationDefinitionFromFS w paths = (trace, Returned (Some d)) ↔
  existsSync w (abs_definition paths) = true
  ∧ ∃ artifact others module,
      buildEntrypoint w (buildProps paths) = Returned (artifact :: others)
      ∧ requireJsCode w (text artifact) = Returned module
      ∧ default_export module = Some d
      ∧ trace = [ExistsSync (abs_definition paths); BuildEntrypoint (buildProps paths);
                 RequireJsCode (text artifact)].
Proof.
  unfold readIntegrationDefinitionFromFS. split.
  - destruct (existsSync w (abs_definition paths)); simpl; [|done].
    destruct (buildEntrypoint w (buildProps paths)) as [[|artifact others]|e]; simpl;
      [done| |done].
    destruct (requireJsCode w (text artifact)) as [module|e] eqn:Hrequire; [|done].
    intros [= <- Hd]. split; [done|]. by exists artifact, others, module.
  - intros (-> & artifact & others & module & -> & Hrequire & Hd & ->). simpl.
    by rewrite Hrequire, Hd.
Qed.

End LoaderSuccess.

(** ** Examples *)

(** Of three entries the second has no [=]: the error names it. *)
Lemma _parseArgvSecrets_missing_value_demo :
  ∃ key, (("TOKEN" = key ∧ ∀ a b, "TOKEN" ≠ a +:+ "=" +:+ b)
          ∨ ("TOKEN" = key +:+ "=" ∧ ∀ a b, key ≠ a +:+ "=" +:+ b))
         ∧ _parseArgvSecrets (["ID=1"] ++ "TOKEN" :: ["KEY=2"]) = Threw (missingValue key).
Proof.
  apply (_parseArgvSecrets_missing_value ["ID=1"] "TOKEN" ["KEY=2"]).
  - constructor; [|done]. by exists "ID", "1".
  - intros (key & c & value & Hsplit)%wellFormed_split. vm_compute in Hsplit. discriminate.
Defined.

(** Of two entries for [ID] the second counts. *)
Lemma _parseArgvSecrets_lookup_demo :
  ∃ parsed,
    _parseArgvSecrets ((λ p, p.1 +:+ "=" +:+ p.2) <$> [("ID", "1"); ("KEY", "2"); ("ID", "3")])
    = Returned parsed
    ∧ ∀ k, ownProperty parsed k
           = if decide (k = "__proto__") then None
             else (list_to_map (reverse [("ID", "1"); ("KEY", "2"); ("ID", "3")])
                   : gmap string string) !! k.
Proof.
  apply (_parseArgvSecrets_lookup [("ID", "1"); ("KEY", "2"); ("ID", "3")]).
  repeat (constructor; [split; [by apply index_None|done]|]). constructor.
Defined.

(** [KEY] is no secret of an integration that defines [ID] only. *)
Lemma promptSecrets_unknown_secret_demo :
  ∃ k, k ∈ keys Samples.parsed ∧ (k ∉ ["ID"])
       ∧ promptSecrets Samples.envName Samples.sameAnswer (Some ["ID"]) Samples.argvSecrets
         = ([], Threw (notDefined k)).
Proof.
  apply (promptSecrets_unknown_secret Samples.envName Samples.sameAnswer ["ID"]
           Samples.argvSecrets Samples.parsed).
  - reflexivity.
  - exists "KEY". split; compute_done.
  - intros Hempty. exfalso. revert Hempty. compute_done.
Defined.

(** With [KEY] given, [ID] is asked for and [KEY] is not. *)
Lemma promptSecrets_trace_demo :
  [Asked (enterValue "ID"); Logged (usingSecret "KEY")]
  = (λ d, if decide (d ∈ keys Samples.parsed ∨ d ∈ objectPrototype)
          then Logged (usingSecret d) else Asked (enterValue d))
    <$> Samples.secretDefinitions.
Proof.
  apply (promptSecrets_trace Samples.envName Samples.sameAnswer Samples.secretDefinitions
           Samples.argvSecrets Samples.parsed
           [Asked (enterValue "ID"); Logged (usingSecret "KEY")]
           [("SECRET_ID", Text "s3cret"); ("SECRET_KEY", Text "2")]);
    reflexivity.
Defined.

Lemma promptSecrets_required_demo :
  ((∃ trace env,
      promptSecrets Samples.envName Samples.noAnswer (Some Samples.secretDefinitions)
                    Samples.argvSecrets
      = (trace, Returned env))
   ↔ (∀ i d,
        filter (λ d, (d ∉ keys Samples.parsed) ∧ (d ∉ objectPrototype))
               Samples.secretDefinitions !! i = Some d →
        ∃ c a, Samples.noAnswer i (enterValue d) = Some (String c a)))
  ∧ (∀ trace e,
       promptSecrets Samples.envName Samples.noAnswer (Some Samples.secretDefinitions)
                     Samples.argvSecrets
       = (trace, Threw e) →
       e = secretRequired).
Proof.
  apply (promptSecrets_required Samples.envName Samples.noAnswer Samples.secretDefinitions
           Samples.argvSecrets Samples.parsed).
  - reflexivity.
  - intros k Hk. apply list_elem_of_singleton in Hk as ->. compute_done.
Defined.

Lemma promptSecrets_env_keys_demo :
  "SECRET_ID" ∈ keys [("SECRET_ID", Text "s3cret"); ("SECRET_KEY", Text "2")]
  ↔ (∃ d, d ∈ Samples.secretDefinitions ∧ d ≠ "__proto__" ∧ "SECRET_ID" = Samples.envName d).
Proof.
  apply (promptSecrets_env_keys Samples.envName Samples.sameAnswer Samples.secretDefinitions
           Samples.argvSecrets [Asked (enterValue "ID"); Logged (usingSecret "KEY")]).
  reflexivity.
Defined.

Lemma envName_inj d1 d2 : Samples.envName d1 = Samples.envName d2 → d1 = d2.
Proof.
  unfold Samples.envName. rewrite !append_cons, !append_nil_l. by intros [= ->].
Qed.

Lemma promptSecrets_argv_value_demo :
  ownProperty [("SECRET_ID", Text "s3cret"); ("SECRET_KEY", Text "2")] (Samples.envName "KEY")
  = Some (Text "2").
Proof.
  apply (promptSecrets_argv_value Samples.envName Samples.sameAnswer Samples.secretDefinitions
           Samples.argvSecrets Samples.parsed
           [Asked (enterValue "ID"); Logged (usingSecret "KEY")]).
  - apply envName_inj.
  - reflexivity.
  - reflexivity.
  - compute_done.
  - reflexivity.
Defined.

Lemma promptSecrets_prompted_value_demo :
  ∃ answer, Samples.sameAnswer 0 (enterValue "ID") = Some answer
            ∧ ownProperty [("SECRET_ID", Text "s3cret"); ("SECRET_KEY", Text "2")]
                          (Samples.envName "ID")
              = Some (Text answer).
Proof.
  apply (promptSecrets_prompted_value Samples.envName Samples.sameAnswer
           Samples.secretDefinitions Samples.argvSecrets Samples.parsed
           [Asked (enterValue "ID"); Logged (usingSecret "KEY")]).
  - apply envName_inj.
  - compute_done.
  - reflexivity.
  - reflexivity.
  - reflexivity.
Defined.

(** Behind an entry without a name, [KEY], which the integration does not
    define, passes; the one error left is the unanswered question. *)
Lemma promptSecrets_empty_name_demo :
  ∃ trace,
    promptSecrets Samples.envName Samples.noAnswer (Some ["ID"])
                  (("=" +:+ "x") :: Samples.argvSecrets)
    = (trace, Threw secretRequired).
Proof.
  destruct (promptSecrets Samples.envName Samples.noAnswer (Some ["ID"])
              (("=" +:+ "x") :: Samples.argvSecrets)) as [trace [env|e]] eqn:Hrun.
  - vm_compute in Hrun. discriminate.
  - exists trace. do 2 f_equal.
    apply (promptSecrets_empty_name Samples.envName Samples.noAnswer ["ID"] "x"
             Samples.argvSecrets trace e).
    + done.
    + compute_done.
    + constructor; [|done]. by exists "KEY", "2".
    + by constructor.
    + exact Hrun.
Defined.

(** A note beside the output folder is there after the run. *)
Lemma writeGeneratedFilesToOutFolder_keeps_demo :
  ∃ fs',
    writeGeneratedFilesToOutFolder Demo.joinPaths ["out"] [Demo.actionsIndex] Samples.notes
    = Ok fs'
    ∧ fs' !! ["notes.txt"] = Some (Regular "kept").
Proof.
  eexists. split; [reflexivity|].
  eapply (writeGeneratedFilesToOutFolder_keeps Demo.joinPaths ["out"] [Demo.actionsIndex]
            Samples.notes _ ["notes.txt"] (Regular "kept")).
  - reflexivity.
  - reflexivity.
  - intros file Hfile. apply list_elem_of_singleton in Hfile as ->. done.
Defined.

(** Of two files for [actions/index.ts] the second is the one read back. *)
Lemma writeGeneratedFilesToOutFolder_last_write_demo :
  ∃ fs',
    writeGeneratedFilesToOutFolder Demo.joinPaths ["out"]
      ([Samples.olderIndex] ++ Demo.actionsIndex :: [Demo.actionsPing]) ∅
    = Ok fs'
    ∧ fs' !! Demo.joinPaths ["out"] (file_path Demo.actionsIndex)
      = Some (Regular (file_content Demo.actionsIndex)).
Proof.
  eexists. split; [reflexivity|].
  eapply (writeGeneratedFilesToOutFolder_last_write Demo.joinPaths ["out"]
            [Samples.olderIndex] Demo.actionsIndex [Demo.actionsPing] ∅).
  - reflexivity.
  - intros g Hg. apply list_elem_of_singleton in Hg as ->. done.
Defined.

Lemma writeGeneratedFilesToOutFolder_again_demo :
  ∃ fs',
    writeGeneratedFilesToOutFolder Demo.joinPaths ["out"]
      [Demo.actionsIndex; Demo.actionsPing] ∅
    = Ok fs'
    ∧ writeGeneratedFilesToOutFolder Demo.joinPaths ["out"]
        [Demo.actionsIndex; Demo.actionsPing] fs'
      = Ok fs'.
Proof.
  eexists. split; [reflexivity|].
  apply (writeGeneratedFilesToOutFolder_again Demo.joinPaths ["out"]
           [Demo.actionsIndex; Demo.actionsPing] ∅).
  reflexivity.
Defined.
